(** * Font merger ([Lib/fontTools/merge.py]): a shallow embedding

    The merger combines the tables of several fonts into one font.  This
    development embeds the glyph-order unifier ([Merger._mergeGlyphOrders]),
    the merge-policy primitives, the generic field merger
    ([Merger._mergeKeys]) and the table mergers, and proves the properties
    their specification states about them.

    Python values are modelled by the data they hold: a [dict] is a [gmap],
    a [list] is a [list], an [int] is a [Z], a [str] is a [string], an
    attribute that may be [None] is an [option].  A raised exception is a
    [Raise] result. *)

From Stdlib Require Import QArith.QArith_base Ascii String.
From stdpp Require Import base option numbers list strings pretty gmap sets fin_maps.

Set Warnings "-clear-no-such-hyp".


(** ** Exceptions and results *)

Module Py.

(** The exceptions the merger can end in. *)
Inductive error :=
| AssertionError
| StopIteration
| KeyError
| AttributeError
| TypeError
| ValueError.

Inductive result (A : Type) :=
| Ok (a : A)
| Raise (e : error).
Arguments Ok {A} a.
Arguments Raise {A} e.

(** Sequencing: an exception raised by [r] ends the computation. *)
Definition bind {A B} (k : A → result B) (r : result A) : result B :=
  match r with
  | Ok a => k a
  | Raise e => Raise e
  end.

Definition is_Ok {A} (r : result A) : Prop := ∃ a, r = Ok a.

(** [repr(n)] of a non-negative [int]: its decimal digits. *)
Definition repr (n : nat) : string := pretty n.

(** The character [c] occurs in the string [s]. *)
Fixpoint occurs (c : ascii) (s : string) : Prop :=
  match s with
  | EmptyString => False
  | String d s => c = d ∨ occurs c s
  end.

End Py.

Export Py.

Global Instance result_bind : MBind result := @Py.bind.
Global Instance result_ret : MRet result := @Py.Ok.

Global Instance error_eq_dec : EqDecision error.
Proof. solve_decision. Defined.

(** ** The glyph-order unifier *)

Module GlyphOrders.

(** [glyphName += "#" + repr(n)] *)
Definition rename (n : nat) (glyphName : string) : string :=
  glyphName +:+ "#" +:+ repr n.

(** The inner loop, [for i,glyphName in enumerate(glyphOrder)], at
    position [i].  The list iterator reads [glyphOrder[i]] from the list
    as it is at that moment and stops once [i] is out of range; the body
    assigns [glyphOrder[i]] in place and appends to [mega].  An item
    assignment keeps the length, so at most [length glyphOrder - i]
    rounds remain: [rounds] counts them down. *)
Fixpoint rename_from (n rounds i : nat) (glyphOrder mega : list string)
  : list string * list string :=
  match rounds with
  | O => (glyphOrder, mega)
  | S rounds =>
      match glyphOrder !! i with
      | None => (glyphOrder, mega)
      | Some glyphName =>
          let glyphName := rename n glyphName in
          rename_from n rounds (S i) (<[i:=glyphName]> glyphOrder) (mega ++ [glyphName])
      end
  end.

Definition rename_glyphOrder (n : nat) (glyphOrder mega : list string)
  : list string * list string :=
  rename_from n (length glyphOrder) 0 glyphOrder mega.

(** The outer loop, [for n,glyphOrder in enumerate(glyphOrders)], at
    font index [n].  The per-font lists are separate objects (each is the
    glyph order of a font loaded on its own), held here in the list
    [glyphOrders]; renaming font [n] in place replaces entry [n]. *)
Fixpoint merge_from (rounds n : nat) (glyphOrders : list (list string))
  (mega : list string) : list (list string) * list string :=
  match rounds with
  | O => (glyphOrders, mega)
  | S rounds =>
      match glyphOrders !! n with
      | None => (glyphOrders, mega)
      | Some glyphOrder =>
          let '(glyphOrder, mega) := rename_glyphOrder n glyphOrder mega in
          merge_from rounds (S n) (<[n:=glyphOrder]> glyphOrders) mega
      end
  end.

(** [Merger._mergeGlyphOrders]: the passed-in lists as they are when
    the method returns, and the returned [mega]. *)
Definition _mergeGlyphOrders (glyphOrders : list (list string))
  : list (list string) * list string :=
  merge_from (length glyphOrders) 0 glyphOrders [].

End GlyphOrders.

Import GlyphOrders.

(** ** Field values and the merge-policy primitives *)

Module Combinators.

(** The values a table attribute holds: an [int], a [str] (the table
    tag), a list of names ([extraNames]) or a name-to-name [dict]
    ([mapping]). *)
Inductive value :=
| VInt (z : Z)
| VStr (s : string)
| VList (l : list string)
| VDict (m : gmap string string).

Global Instance value_eq_dec : EqDecision value.
Proof. solve_decision. Defined.

(** The functions a policy can name.  [c_max], [c_min] and [c_sum] are
    the builtins; [c_const z] is [lambda lst: z]. *)
Inductive combinator :=
| c_equal
| c_first
| c_recalculate
| c_current_time
| c_bitwise_or
| c_ignore
| c_max
| c_min
| c_sum
| c_const (z : Z).

Global Instance combinator_eq_dec : EqDecision combinator.
Proof. solve_decision. Defined.

(** [def equal(lst)]: [next(t)] raises [StopIteration] on an empty list,
    the [assert] raises [AssertionError]. *)
Definition equal {A} `{EqDecision A} (lst : list A) : result A :=
  match lst with
  | [] => Raise StopIteration
  | first :: t =>
      if forallb (λ item, bool_decide (item = first)) t
      then Ok first
      else Raise AssertionError
  end.

(** [def first(lst)] *)
Definition first {A} (lst : list A) : result A :=
  match lst with
  | [] => Raise StopIteration
  | x :: _ => Ok x
  end.

(** [def recalculate(lst)] *)
Definition recalculate {A} (lst : list A) : result A := first lst.

(** [def current_time(lst)]: [now] is what this call reads from the
    clock, in the table's epoch:
    [int(time.time() - _h_e_a_d.mac_epoch_diff)].  Every call reads the
    clock anew. *)
Definition current_time {A} (now : Z) (lst : list A) : result value :=
  Ok (VInt now).

(** [def ignore(lst)]: [assert False]. *)
Definition ignore {A} (lst : list A) : result value := Raise AssertionError.

(** [a < b] on values: integers by size, strings and lists of strings
    lexicographically; other pairs are not ordered ([TypeError]). *)
Fixpoint list_ltb (l1 l2 : list string) : bool :=
  match l1, l2 with
  | _, [] => false
  | [], _ :: _ => true
  | x :: l1, y :: l2 =>
      if String.ltb x y then true
      else if String.eqb x y then list_ltb l1 l2 else false
  end.

Definition py_lt (a b : value) : result bool :=
  match a, b with
  | VInt x, VInt y => Ok (x <? y)%Z
  | VStr x, VStr y => Ok (String.ltb x y)
  | VList x, VList y => Ok (list_ltb x y)
  | _, _ => Raise TypeError
  end.

(** The builtin [max]: the first of the largest items. *)
Fixpoint max_from (best : value) (lst : list value) : result value :=
  match lst with
  | [] => Ok best
  | item :: lst =>
      gt ← py_lt best item;
      max_from (if gt : bool then item else best) lst
  end.

Definition py_max (lst : list value) : result value :=
  match lst with
  | [] => Raise ValueError
  | x :: lst => max_from x lst
  end.

(** The builtin [min]: the first of the smallest items. *)
Fixpoint min_from (best : value) (lst : list value) : result value :=
  match lst with
  | [] => Ok best
  | item :: lst =>
      lt ← py_lt item best;
      min_from (if lt : bool then item else best) lst
  end.

Definition py_min (lst : list value) : result value :=
  match lst with
  | [] => Raise ValueError
  | x :: lst => min_from x lst
  end.

(** The builtin [sum], starting from [0]. *)
Fixpoint sum_from (acc : Z) (lst : list value) : result value :=
  match lst with
  | [] => Ok (VInt acc)
  | VInt z :: lst => sum_from (acc + z) lst
  | _ :: _ => Raise TypeError
  end.

Definition py_sum (lst : list value) : result value := sum_from 0 lst.

(** [def bitwise_or(lst)]: [reduce(operator.or_, lst)] without an
    initial value. *)
Fixpoint or_from (acc : value) (lst : list value) : result value :=
  match lst with
  | [] => Ok acc
  | item :: lst =>
      match acc, item with
      | VInt x, VInt y => or_from (VInt (Z.lor x y)) lst
      | _, _ => Raise TypeError
      end
  end.

Definition bitwise_or (lst : list value) : result value :=
  match lst with
  | [] => Raise TypeError
  | x :: lst => or_from x lst
  end.

(** Calling the function a policy names. *)
Definition call (now : Z) (merge_logic : combinator) (lst : list value)
  : result value :=
  match merge_logic with
  | c_equal => equal lst
  | c_first => first lst
  | c_recalculate => recalculate lst
  | c_current_time => current_time now lst
  | c_bitwise_or => bitwise_or lst
  | c_ignore => ignore lst
  | c_max => py_max lst
  | c_min => py_min lst
  | c_sum => py_sum lst
  | c_const z => Ok (VInt z)
  end.

End Combinators.

Import Combinators.

(** ** The generic field merger *)

Module Merger.

(** A table is seen through [vars(table)], its instance attributes: a
    [gmap string value].  A policy ([logic]) maps field names to
    combinators: a [gmap string combinator]. *)

(** [try: merge_logic = logic[key]  except KeyError: merge_logic = logic['*']] *)
Definition lookup_logic (logic : gmap string combinator) (key : string)
  : result combinator :=
  match logic !! key with
  | Some merge_logic => Ok merge_logic
  | None =>
      match logic !! "*" with
      | Some merge_logic => Ok merge_logic
      | None => Raise KeyError
      end
  end.

(** What a run of [_mergeKeys] reads from outside the tables it is given:
    the clock, read once by each call of [current_time] (so once for each
    field merged with it: [clock key] is the reading taken while [key] is
    merged), and the attributes that the tables' class (they are all of
    class [getTableClass(tag)]) defines for every instance. *)
Record runtime := {
  clock : string → Z;
  class_attributes : gmap string value
}.

(** [getattr(table, key)]: the instance's own attribute, else the
    attribute of its class, else [AttributeError]. *)
Definition table_getattr (env : runtime) (table : gmap string value)
  (key : string) : option value :=
  match table !! key with
  | Some v => Some v
  | None => class_attributes env !! key
  end.

(** [[getattr(table, key) for table in self.tables]] *)
Fixpoint getattrs (env : runtime) (tables : list (gmap string value))
  (key : string) : result (list value) :=
  match tables with
  | [] => Ok []
  | t :: tables =>
      match table_getattr env t key with
      | None => Raise AttributeError
      | Some v => vs ← getattrs env tables key; Ok (v :: vs)
      end
  end.

(** [set.union(set(), *(vars(table).keys() for table in self.tables))] *)
Definition allKeys (tables : list (gmap string value)) : gset string :=
  ⋃ (dom <$> tables).

(** The body of [for key in allKeys], over the keys in the order the set
    yields them. *)
Fixpoint mergeKeys_loop (env : runtime) (tables : list (gmap string value))
  (logic : gmap string combinator) (keys : list string)
  (return_table : gmap string value) : result (gmap string value) :=
  match keys with
  | [] => Ok return_table
  | key :: keys =>
      merge_logic ← lookup_logic logic key;
      if decide (merge_logic = c_ignore)
      then mergeKeys_loop env tables logic keys return_table
      else
        lst ← getattrs env tables key;
        key_value ← call (clock env key) merge_logic lst;
        mergeKeys_loop env tables logic keys (<[key:=key_value]> return_table)
  end.

(** [Merger._mergeKeys], the set being walked in the order [keys]. *)
Definition _mergeKeys_in (keys : list string) (env : runtime)
  (tables : list (gmap string value)) (return_table : gmap string value)
  (logic : gmap string combinator) : result (gmap string value) :=
  let logic := <["tableTag":=c_equal]> logic in
  mergeKeys_loop env tables logic keys return_table.

(** [Merger._mergeKeys].  The order in which a Python [set] yields its
    members is not fixed by the language; [elements] is one such order,
    and the theorems below do not depend on which. *)
Definition _mergeKeys (env : runtime) (tables : list (gmap string value))
  (return_table : gmap string value) (logic : gmap string combinator)
  : result (gmap string value) :=
  _mergeKeys_in (elements (allKeys tables)) env tables return_table logic.

(** [table = clazz(tag)]: a new table carries its tag only. *)
Definition new_table (tag : string) : gmap string value :=
  {[ "tableTag" := VStr tag ]}.

End Merger.

Import Merger.

(** ** The policies of the metadata tables *)

Module Policies.

(** The table kinds whose [merge] goes through [_mergeKeys]. *)
Inductive kind := maxp | head | hhea | OS2 | post.

Definition tag (k : kind) : string :=
  match k with
  | maxp => "maxp" | head => "head" | hhea => "hhea"
  | OS2 => "OS/2" | post => "post"
  end.

Definition maxp_logic : gmap string combinator :=
  list_to_map [
    ("*", c_max);
    ("tableVersion", c_equal);
    ("numGlyphs", c_sum);
    ("maxStorage", c_max);
    ("maxFunctionDefs", c_sum);
    ("maxInstructionDefs", c_sum) ].

Definition head_logic : gmap string combinator :=
  list_to_map [
    ("tableVersion", c_max);
    ("fontRevision", c_max);
    ("checkSumAdjustment", c_recalculate);
    ("magicNumber", c_equal);
    ("flags", c_first);
    ("unitsPerEm", c_equal);
    ("created", c_current_time);
    ("modified", c_current_time);
    ("xMin", c_min);
    ("yMin", c_min);
    ("xMax", c_max);
    ("yMax", c_max);
    ("macStyle", c_first);
    ("lowestRecPPEM", c_max);
    ("fontDirectionHint", c_const 2);
    ("indexToLocFormat", c_recalculate);
    ("glyphDataFormat", c_equal) ].

Definition hhea_logic : gmap string combinator :=
  list_to_map [
    ("*", c_equal);
    ("tableVersion", c_max);
    ("ascent", c_max);
    ("descent", c_min);
    ("lineGap", c_max);
    ("advanceWidthMax", c_max);
    ("minLeftSideBearing", c_min);
    ("minRightSideBearing", c_min);
    ("xMaxExtent", c_max);
    ("caretSlopeRise", c_first);
    ("caretSlopeRun", c_first);
    ("caretOffset", c_first);
    ("numberOfHMetrics", c_recalculate) ].

Definition OS2_logic : gmap string combinator :=
  list_to_map [
    ("*", c_first);
    ("version", c_max);
    ("xAvgCharWidth", c_recalculate);
    ("fsType", c_first);
    ("panose", c_first);
    ("ulUnicodeRange1", c_bitwise_or);
    ("ulUnicodeRange2", c_bitwise_or);
    ("ulUnicodeRange3", c_bitwise_or);
    ("ulUnicodeRange4", c_bitwise_or);
    ("fsFirstCharIndex", c_min);
    ("fsLastCharIndex", c_max);
    ("sTypoAscender", c_max);
    ("sTypoDescender", c_min);
    ("sTypoLineGap", c_max);
    ("usWinAscent", c_max);
    ("usWinDescent", c_max);
    ("ulCodePageRange1", c_bitwise_or);
    ("ulCodePageRange2", c_bitwise_or);
    ("usMaxContex", c_max) ].

Definition post_logic : gmap string combinator :=
  list_to_map [
    ("*", c_first);
    ("formatType", c_max);
    ("isFixedPitch", c_min);
    ("minMemType42", c_max);
    ("maxMemType42", c_const 0);
    ("minMemType1", c_max);
    ("maxMemType1", c_const 0);
    ("mapping", c_ignore);
    ("extraNames", c_ignore) ].

(** The [logic] dict written in the [merge] of each kind. *)
Definition logic_of (k : kind) : gmap string combinator :=
  match k with
  | maxp => maxp_logic
  | head => head_logic
  | hhea => hhea_logic
  | OS2 => OS2_logic
  | post => post_logic
  end.

(** The dict the lookups of [_mergeKeys] run on, after its first line
    [logic['tableTag'] = equal]. *)
Definition logic_in_mergeKeys (k : kind) : gmap string combinator :=
  <["tableTag":=c_equal]> (logic_of k).

(** [merge] of maxp, head, hhea and OS/2:
    [m._mergeKeys(self, logic); return True]. *)
Definition merge_scalar_in (keys : list string) (k : kind) (env : runtime)
  (tables : list (gmap string value)) : result (gmap string value * bool) :=
  self ← _mergeKeys_in keys env tables (new_table (tag k)) (logic_of k);
  Ok (self, true).

Definition merge_scalar (k : kind) (env : runtime)
  (tables : list (gmap string value)) : result (gmap string value * bool) :=
  merge_scalar_in (elements (allKeys tables)) k env tables.

End Policies.

Import Policies.

(** ** The PostScript-info table *)

Module Post.

(** [self.mapping.update(table.mapping)].  The codec stores a [dict] in
    [mapping]; [update] with an [int] is a [TypeError], and the model
    treats the other non-dict values alike. *)
Definition mapping_update (self : gmap string value) (v : value)
  : result (gmap string value) :=
  match self !! "mapping", v with
  | Some (VDict mine), VDict theirs => Ok (<["mapping":=VDict (theirs ∪ mine)]> self)
  | Some _, _ => Raise TypeError
  | None, _ => Raise AttributeError
  end.

(** [for table in m.tables: if hasattr(table, 'mapping'): ...] *)
Fixpoint update_mappings (env : runtime) (tables : list (gmap string value))
  (self : gmap string value) : result (gmap string value) :=
  match tables with
  | [] => Ok self
  | t :: tables =>
      match table_getattr env t "mapping" with
      | Some v => self ← mapping_update self v; update_mappings env tables self
      | None => update_mappings env tables self
      end
  end.

Definition merge_in (keys : list string) (env : runtime)
  (tables : list (gmap string value)) : result (gmap string value * bool) :=
  self ← _mergeKeys_in keys env tables (new_table "post") post_logic;
  let self := <["mapping":=VDict ∅]> self in
  self ← update_mappings env tables self;
  let self := <["extraNames":=VList []]> self in
  Ok (self, true).

Definition merge (env : runtime) (tables : list (gmap string value))
  : result (gmap string value * bool) :=
  merge_in (elements (allKeys tables)) env tables.

(** The union the loop builds: later tables overwrite earlier ones. *)
Fixpoint mappings_union (env : runtime) (tables : list (gmap string value))
  (acc : gmap string string) : gmap string string :=
  match tables with
  | [] => acc
  | t :: tables =>
      match table_getattr env t "mapping" with
      | Some (VDict m) => mappings_union env tables (m ∪ acc)
      | _ => mappings_union env tables acc
      end
  end.

End Post.

(** ** The metrics tables (hmtx, vmtx) *)

Module Metrics.

(** A metrics table: glyph name to (advance, side bearing). *)
Record table := { metrics : gmap string (Z * Z) }.

(** [self.metrics = {}; for table in m.tables:
    self.metrics.update(table.metrics); return True] *)
Definition merge (tables : list table) : table * bool :=
  ({| metrics := foldl (λ self_metrics t, metrics t ∪ self_metrics) ∅ tables |},
   true).

End Metrics.

(** ** The glyph-outline table (glyf) *)

Module Glyf.

(** Glyph objects live in a store and are reached by reference: a glyf
    table's [glyphs] dict maps a glyph name to the reference of its
    object, and [self.glyphs.update(table.glyphs)] copies references. *)
Definition ref := nat.

Record table := {
  glyphOrder : list string;
  glyphs : gmap string ref
}.

Section merge.

(** The glyph class and its three methods belong to the codec
    ([ttLib]'s glyf module): [g.removeHinting()] and [g.expand(table)]
    change the object [g] in place, [g.isComposite()] reads it. *)
Context {Glyph : Type}.
Variable removeHinting : Glyph → Glyph.
Variable isComposite : Glyph → bool.
Variable expand : table → Glyph → Glyph.

(** The body of [for g in table.glyphs.values()] on one object. *)
Definition process (t : table) (g : Glyph) : Glyph :=
  let g := removeHinting g in
  if isComposite g then expand t g else g.

(** The values of the dict, in the order the dict yields them. *)
Definition values (t : table) : list ref := (map_to_list (glyphs t)).*2.

(** The inner loop on the store. *)
Definition process_table (store : gmap ref Glyph) (t : table)
  : gmap ref Glyph :=
  foldl (λ store g, alter (process t) g store) store (values t).

(** [merge]: the store after the call, the new table's [glyphs] and
    the returned [True]. *)
Definition merge (tables : list table) (store : gmap ref Glyph)
  : gmap ref Glyph * gmap string ref * bool :=
  let '(store, self_glyphs) :=
    foldl (λ '(store, self_glyphs) t,
             (process_table store t, glyphs t ∪ self_glyphs))
          (store, ∅) tables in
  (store, self_glyphs, true).


End merge.

(** Modelled from the spec: the glyph objects of the codec, which are not
    part of this file.  A glyph carries its embedded hinting
    instructions, whether it is a composite, and for a composite the
    component references, by glyph index until they are expanded to
    glyph names.  [removeHinting] strips the instructions, [expand]
    materialises the component names from the table of the same font. *)
Record glyph := {
  instructions : list Z;
  composite : bool;
  componentIds : list nat;
  componentNames : option (list string)
}.

Definition glyph_removeHinting (g : glyph) : glyph :=
  {| instructions := [];
     composite := composite g;
     componentIds := componentIds g;
     componentNames := componentNames g |}.

Definition glyph_isComposite (g : glyph) : bool := composite g.

Definition glyph_expand (t : table) (g : glyph) : glyph :=
  match componentNames g with
  | Some _ => g
  | None =>
      {| instructions := instructions g;
         composite := composite g;
         componentIds := componentIds g;
         componentNames :=
           Some ((λ i, default ".notdef" (glyphOrder t !! i)) <$> componentIds g) |}
  end.

Definition glyph_merge := merge glyph_removeHinting glyph_isComposite glyph_expand.

End Glyf.

(** ** The hinting tables (prep, fpgm, cvt) and loca *)

Module Dropped.

(** [return False]: hinting data is not merged. *)
Definition merge_hinting {T} (self : T) (tables : list T) : T * bool := (self, false).

(** loca: [return True], the table is computed when the font is saved. *)
Definition merge_loca {T} (self : T) (tables : list T) : T * bool := (self, true).

End Dropped.

(** ** The character map (cmap) *)

Module Cmap.

(** A cmap subtable. *)
Record subtable := {
  format : Z;
  platformID : Z;
  platEncID : Z;
  language : Z;
  cmap : gmap Z string
}.

(** The cmap table. *)
Record table := {
  tableVersion : Z;
  numSubTables : nat;
  tables : list subtable
}.

(** [t.platformID == 3 and t.platEncID in [1, 10]] *)
Definition selected (t : subtable) : bool :=
  bool_decide (platformID t = 3%Z)
  && (bool_decide (platEncID t = 1%Z) || bool_decide (platEncID t = 10%Z)).

(** [[t for table in m.tables for t in table.tables if ...]] *)
Definition cmapTables (m_tables : list table) : list subtable :=
  filter (λ t, selected t = true) (concat (tables <$> m_tables)).

(** [t.format in [4, 12]] *)
Definition supported (t : subtable) : bool :=
  bool_decide (format t = 4%Z) || bool_decide (format t = 12%Z).

(** The builtin [max] over integers; [ValueError] on an empty
    sequence. *)
Definition max_int (l : list Z) : result Z :=
  match l with
  | [] => Raise ValueError
  | x :: l => Ok (foldl Z.max x l)
  end.

(** [for table in cmapTables: cmapTable.cmap.update(table.cmap)] *)
Definition update_all (l : list subtable) : gmap Z string :=
  foldl (λ acc t, cmap t ∪ acc) ∅ l.

(** [merge].  [module.cmap_classes[format](format)] makes a subtable of
    the class of that format, which exists for the formats 4 and 12 the
    [assert] lets through. *)
Definition merge (m_tables : list table) : result (table * bool) :=
  let cmapTables := cmapTables m_tables in
  if negb (forallb supported cmapTables) then Raise AssertionError
  else
    fmt ← max_int (format <$> cmapTables);
    enc ← max_int (platEncID <$> cmapTables);
    let cmapTable :=
      {| format := fmt;
         platformID := 3;
         platEncID := enc;
         language := 0;
         cmap := update_all cmapTables |} in
    let self_tables := [cmapTable] in
    Ok ({| tableVersion := 0;
           numSubTables := length self_tables;
           tables := self_tables |}, true).

End Cmap.

(** ** The glyph-definition table (GDEF) *)

Module GDEF.

Record Coverage := { cov_glyphs : list string }.

(** A class definition ([MarkAttachClassDef], [GlyphClassDef]). *)
Record ClassDef := { classDefs : gmap string Z }.

Section records.

(** The per-glyph records ([LigGlyph], [AttachPoint]) are objects of
    the codec; the merger moves them around without looking inside. *)
Context {LigGlyphRecord AttachPointRecord : Type}.

Record LigCaretList := {
  lcl_Coverage : Coverage;
  lcl_LigGlyph : list LigGlyphRecord;
  lcl_GlyphCount : nat
}.

Record AttachList := {
  al_Coverage : Coverage;
  al_AttachPoint : list AttachPointRecord;
  al_GlyphCount : nat
}.

(** [otTables.GDEF]: the four substructures are [None] when absent.
    [Version] is the number [1.0]. *)
Record GDEF := {
  Version : Q;
  GDEF_LigCaretList : option LigCaretList;
  GDEF_MarkAttachClassDef : option ClassDef;
  GDEF_GlyphClassDef : option ClassDef;
  GDEF_AttachList : option AttachList
}.

(** The GDEF table of a font: [table.table] is the structure. *)
Record table := { table_of : GDEF }.

(** [any(t.table.X for t in m.tables)]: an object of the codec is
    true, [None] is false. *)
Definition any_has {X} (field : GDEF → option X) (m_tables : list table) : bool :=
  existsb (λ t, bool_decide (is_Some (field (table_of t)))) m_tables.

(** The two parallel lists gathered by [extend], over the tables in
    which the substructure is present. *)
Definition gather {X R} (field : GDEF → option X)
  (cov : X → Coverage) (recs : X → list R) (m_tables : list table)
  : list string * list R :=
  foldl (λ '(glyphs, records) t,
           match field (table_of t) with
           | Some x => (glyphs ++ cov_glyphs (cov x), records ++ recs x)
           | None => (glyphs, records)
           end)
        ([], []) m_tables.

(** The dict built by [classDefs.update], over the tables in which
    the class definition is present. *)
Definition gather_classDefs (field : GDEF → option ClassDef)
  (m_tables : list table) : gmap string Z :=
  foldl (λ acc t,
           match field (table_of t) with
           | Some x => classDefs x ∪ acc
           | None => acc
           end)
        ∅ m_tables.

Definition merge_LigCaretList (m_tables : list table) : option LigCaretList :=
  if any_has GDEF_LigCaretList m_tables then
    let '(glyphs, ligGlyphs) :=
      gather GDEF_LigCaretList lcl_Coverage lcl_LigGlyph m_tables in
    Some {| lcl_Coverage := {| cov_glyphs := glyphs |};
            lcl_LigGlyph := ligGlyphs;
            lcl_GlyphCount := length ligGlyphs |}
  else None.

Definition merge_ClassDef (field : GDEF → option ClassDef)
  (m_tables : list table) : option ClassDef :=
  if any_has field m_tables then
    Some {| classDefs := gather_classDefs field m_tables |}
  else None.

Definition merge_AttachList (m_tables : list table) : option AttachList :=
  if any_has GDEF_AttachList m_tables then
    let '(glyphs, attachPoints) :=
      gather GDEF_AttachList al_Coverage al_AttachPoint m_tables in
    Some {| al_Coverage := {| cov_glyphs := glyphs |};
            al_AttachPoint := attachPoints;
            al_GlyphCount := length attachPoints |}
  else None.

(** [merge] *)
Definition merge (m_tables : list table) : table * bool :=
  ({| table_of :=
        {| Version := 1%Q;
           GDEF_LigCaretList := merge_LigCaretList m_tables;
           GDEF_MarkAttachClassDef := merge_ClassDef GDEF_MarkAttachClassDef m_tables;
           GDEF_GlyphClassDef := merge_ClassDef GDEF_GlyphClassDef m_tables;
           GDEF_AttachList := merge_AttachList m_tables |} |},
   true).

(** Exactly one of the source tables has the substructure, and it is
    [x]. *)
Definition only_source_has {X} (field : GDEF → option X)
  (m_tables : list table) (x : X) : Prop :=
  ∃ before t after,
    m_tables = before ++ t :: after
    ∧ field (table_of t) = Some x
    ∧ Forall (λ t', field (table_of t') = None) (before ++ after).

End records.

Arguments LigCaretList : clear implicits.
Arguments AttachList : clear implicits.
Arguments GDEF : clear implicits.
Arguments table : clear implicits.

End GDEF.

(** ** Attaching the mergers to the table classes ([_add_method]) *)

Module Classes.

(** A table class of the codec, named by its tag, or the codec's
    [DefaultTable], the class of the tags it has no module for. *)
Inductive clazz :=
| TableClass (tag : string)
| DefaultTable.

Global Instance clazz_eq_dec : EqDecision clazz.
Proof. solve_decision. Defined.

Global Instance clazz_countable : Countable clazz :=
  inj_countable'
    (λ c, match c with TableClass tag => Some tag | DefaultTable => None end)
    (λ o, match o with Some tag => TableClass tag | None => DefaultTable end)
    (λ c, match c with TableClass _ => eq_refl | DefaultTable => eq_refl end).

(** The functions named [merge] of the file, in the order they are
    written. *)
Inductive method :=
| merge_maxp | merge_head | merge_hhea | merge_OS2 | merge_post
| merge_metrics | merge_loca | merge_glyf | merge_hinting
| merge_cmap | merge_GDEF.

Global Instance method_eq_dec : EqDecision method.
Proof. solve_decision. Defined.

(** The classes of the codec: the attributes each class defines itself
    ([clazz.__dict__]: for each class, name to function), and for each
    class the classes that come after it in its method resolution order
    ([clazz.__mro__[1:]]), which the codec fixes where it defines the
    class and which nothing in this file changes. *)
Record class_table := {
  attributes : gmap clazz (gmap string method);
  ancestors : clazz → list clazz
}.

(** The attribute [name] that class [c] defines itself. *)
Definition own_attribute (classes : class_table) (c : clazz) (name : string)
  : option method :=
  attributes classes !! c ≫= (.!! name).

(** The attribute [name] of the first class of [mro] that defines one. *)
Fixpoint lookup_mro (classes : class_table) (name : string) (mro : list clazz)
  : option method :=
  match mro with
  | [] => None
  | c :: mro =>
      match own_attribute classes c name with
      | Some m => Some m
      | None => lookup_mro classes name mro
      end
  end.

(** [getattr(clazz, name)]: the class's own attribute, else that of the
    first of its ancestors that has one. *)
Definition getattr (classes : class_table) (c : clazz) (name : string)
  : option method :=
  lookup_mro classes name (c :: ancestors classes c).

(** [hasattr(clazz, name)] *)
Definition hasattr (classes : class_table) (c : clazz) (name : string) : bool :=
  bool_decide (is_Some (getattr classes c name)).

(** [setattr(clazz, name, method)]: the class's own attribute is set. *)
Definition setattr (classes : class_table)
  (c : clazz) (name : string) (m : method) : class_table :=
  {| attributes :=
       <[c := <[name := m]> (default ∅ (attributes classes !! c))]>
         (attributes classes);
     ancestors := ancestors classes |}.

(** How the decorator ends: done, one of its two assertions, or the
    unbound loop variable. *)
Inductive outcome (A : Type) :=
| Done (a : A)
| Oops_table_class_not_found
| Oops_class_has_method (c : clazz) (name : string)
| UnboundLocalError.
Arguments Done {A} a.
Arguments Oops_table_class_not_found {A}.
Arguments Oops_class_has_method {A} c name.
Arguments UnboundLocalError {A}.

(** The loop [for clazz in clazzes] with its two assertions; it leaves
    in [clazz] the last class it has seen. *)
Fixpoint check (classes : class_table) (name : string)
  (clazzes : list clazz) (last : option clazz) : outcome (option clazz) :=
  match clazzes with
  | [] => Done last
  | c :: clazzes =>
      if decide (c = DefaultTable) then Oops_table_class_not_found
      else if hasattr classes c name then Oops_class_has_method c name
      else check classes name clazzes (Some c)
  end.

(** The decorator [_add_method] of the classes [clazzes], applied to a
    method; [name] is [method.__name__].
    The [setattr] comes after the loop and works on the loop variable. *)
Definition _add_method (clazzes : list clazz) (name : string) (m : method)
  (classes : class_table) : outcome class_table :=
  match check classes name clazzes None with
  | Done (Some c) => Done (setattr classes c name m)
  | Done None => UnboundLocalError
  | Oops_table_class_not_found => Oops_table_class_not_found
  | Oops_class_has_method c name => Oops_class_has_method c name
  | UnboundLocalError => UnboundLocalError
  end.

(** [ttLib.getTableClass(tag)]: the class of the tag where the codec has
    a module for it ([has_module]), [DefaultTable] otherwise. *)
Definition getTableClass (has_module : string → bool) (tag : string) : clazz :=
  if has_module tag then TableClass tag else DefaultTable.

(** The decorated definitions of the file, top to bottom: the tags each
    decorator names and the function it decorates. *)
Definition decorated : list (list string * method) :=
  [ (["maxp"], merge_maxp);
    (["head"], merge_head);
    (["hhea"], merge_hhea);
    (["OS/2"], merge_OS2);
    (["post"], merge_post);
    (["vmtx"; "hmtx"], merge_metrics);
    (["loca"], merge_loca);
    (["glyf"], merge_glyf);
    (["prep"; "fpgm"; "cvt "], merge_hinting);
    (["cmap"], merge_cmap);
    (["GDEF"], merge_GDEF) ].

(** Loading the module runs the decorators in order; the first one that
    fails ends the load. *)
Fixpoint load (has_module : string → bool) (ds : list (list string * method))
  (classes : class_table) : outcome class_table :=
  match ds with
  | [] => Done classes
  | (tags, m) :: ds =>
      match _add_method (getTableClass has_module <$> tags) "merge" m classes with
      | Done classes => load has_module ds classes
      | Oops_table_class_not_found => Oops_table_class_not_found
      | Oops_class_has_method c name => Oops_class_has_method c name
      | UnboundLocalError => UnboundLocalError
      end
  end.

End Classes.

(** ** The command-line flags of the logger ([Logger.parse_opts]) *)

Module Logger.

(** The three switches of a [Logger]; [parse_opts] reads and writes
    nothing else of it. *)
Record t := { verbose : bool; xml : bool; timing : bool }.

(** [setattr(self, v, True)] for [v] one of the three names. *)
Definition set_true (v : string) (self : t) : t :=
  if decide (v = "verbose") then
    {| verbose := true; xml := xml self; timing := timing self |}
  else if decide (v = "xml") then
    {| verbose := verbose self; xml := true; timing := timing self |}
  else if decide (v = "timing") then
    {| verbose := verbose self; xml := xml self; timing := true |}
  else self.

(** [argv.remove(x)], for an [x] that is in [argv]: the first item equal
    to [x] goes. *)
Fixpoint remove_first (x : string) (argv : list string) : list string :=
  match argv with
  | [] => []
  | a :: argv => if decide (a = x) then argv else a :: remove_first x argv
  end.

(** The body of [for v in ['verbose', 'xml', 'timing']]. *)
Definition parse_flag (st : t * list string) (v : string) : t * list string :=
  let '(self, argv) := st in
  if bool_decide ("--" +:+ v ∈ argv)
  then (set_true v self, remove_first ("--" +:+ v) argv)
  else (self, argv).

(** [Logger.parse_opts]: the logger afterwards and the returned list.
    The method works on the copy [argv[:]]. *)
Definition parse_opts (self : t) (argv : list string) : t * list string :=
  foldl parse_flag (self, argv) ["verbose"; "xml"; "timing"].

End Logger.

(** ** The orchestrator ([Merger.merge]) *)

Module Orchestrator.

Import Classes.

(** [Options._drop_tables_default] *)
Definition _drop_tables_default : list string := ["fpgm"; "prep"; "cvt "; "gasp"].

Section merge.

(** The tables of the fonts are objects of the codec. *)
Context {T : Type}.

(** A loaded font: its glyph order, what [font.keys()] lists, and the
    tables [font[tag]] finds. *)
Record font := {
  glyphOrder : list string;
  keys : list string;
  tables : gmap string T
}.

(** The classes with the attributes they have once the module is loaded,
    and the codec's table of modules. *)
Variable classes : class_table.
Variable has_module : string → bool.

(** [clazz(tag)], and [table.merge(self)] for the mergers that work on
    the tables: the table afterwards and the truth of what the call
    returns. *)
Variable new : string → T.
Variable run : method → T → list T → result (T * bool).

(** [table.merge(self)].  The mergers of the hinting tables and of loca
    return at once. *)
Definition table_merge (m : method) (table : T) (self_tables : list T)
  : result (T * bool) :=
  match m with
  | merge_hinting => Ok (table, false)
  | merge_loca => Ok (table, true)
  | _ => run m table self_tables
  end.

(** [[font[tag] for font in fonts]] *)
Fixpoint tables_of (fonts : list font) (tag : string) : result (list T) :=
  match fonts with
  | [] => Ok []
  | f :: fonts =>
      match tables f !! tag with
      | None => Raise KeyError
      | Some t => ts ← tables_of fonts tag; Ok (t :: ts)
      end
  end.

(** The tag is merged into [table]: it is not to be dropped, its class
    has a [merge], every font has a table for it, and the merger leaves
    [table] and returns true. *)
Definition merged_as (drop_tables : list string) (fonts : list font)
  (tag : string) (table : T) : Prop :=
  (tag ∉ drop_tables)
  ∧ (∃ m self_tables,
       getattr classes (getTableClass has_module tag) "merge" = Some m
       ∧ tables_of fonts tag = Ok self_tables
       ∧ table_merge m (new tag) self_tables = Ok (table, true)).

(** The body of [for tag in allTags], over the tags in the order the set
    yields them; the state is the tables of [mega] and the lines handed
    to [self.log]. *)
Fixpoint merge_tags (drop_tables : list string) (fonts : list font)
  (tags : list string) (mega : gmap string T) (log : list string)
  : result (gmap string T * list string) :=
  match tags with
  | [] => Ok (mega, log)
  | tag :: tags =>
      if bool_decide (tag ∈ drop_tables) then
        merge_tags drop_tables fonts tags mega
          (log ++ ["Dropping '" +:+ tag +:+ "'."])
      else
        let clazz := getTableClass has_module tag in
        match getattr classes clazz "merge" with
        | None =>
            merge_tags drop_tables fonts tags mega
              (log ++ ["Don't know how to merge '" +:+ tag +:+ "', dropped."])
        | Some m =>
            self_tables ← tables_of fonts tag;
            '(table, merged) ← table_merge m (new tag) self_tables;
            if merged : bool then
              merge_tags drop_tables fonts tags (<[tag := table]> mega)
                (log ++ ["Merged '" +:+ tag +:+ "'."])
            else
              merge_tags drop_tables fonts tags mega
                (log ++ ["Dropped '" +:+ tag
                         +:+ "'.  No need to merge explicitly."])
        end
  end.

(** [reduce(set.union, (list(font.keys()) for font in fonts), set())] *)
Definition allTags (fonts : list font) : gset string :=
  foldl (λ acc f, acc ∪ list_to_set (keys f)) ∅ fonts.

(** What [Merger.merge] hands back: the merged font and the log. *)
Record merged := {
  mega_glyphOrder : list string;
  mega_tables : gmap string T;
  log_lines : list string
}.

(** [Merger.merge], the set [allTags] being walked in the order [tags].
    [fonts] are the fonts as loaded from the files; they are loaded a
    second time and given the renamed glyph orders.
    [allTags.remove('GlyphOrder')] is a [KeyError] when no font lists
    that key. *)
Definition merge_in (tags : list string) (drop_tables : list string)
  (fonts : list font) : result merged :=
  let glyphOrders := glyphOrder <$> fonts in
  let '(glyphOrders, megaGlyphOrder) := _mergeGlyphOrders glyphOrders in
  let fonts :=
    zip_with (λ f glyphOrder,
                {| glyphOrder := glyphOrder; keys := keys f; tables := tables f |})
             fonts glyphOrders in
  if bool_decide ("GlyphOrder" ∈ allTags fonts) then
    '(mega, log) ← merge_tags drop_tables fonts tags ∅ [];
    Ok {| mega_glyphOrder := megaGlyphOrder;
          mega_tables := mega;
          log_lines := log |}
  else Raise KeyError.

Definition merge (drop_tables : list string) (fonts : list font)
  : result merged :=
  merge_in (elements (allTags fonts ∖ {["GlyphOrder"]})) drop_tables fonts.

End merge.

Arguments font : clear implicits.
Arguments merged : clear implicits.

End Orchestrator.

(** ** Two small fonts for the orchestrator *)

Module Example.

Import Classes Orchestrator.

(** The classes of a codec that has a module for every tag, before the
    file is loaded: they define no attributes, the class of vmtx is a
    subclass of the class of hmtx and the class of prep one of the class
    of fpgm, and every table class is a subclass of [DefaultTable]. *)
Definition codec_ancestors (c : clazz) : list clazz :=
  match c with
  | TableClass tag =>
      if decide (tag = "vmtx") then [TableClass "hmtx"; DefaultTable]
      else if decide (tag = "prep") then [TableClass "fpgm"; DefaultTable]
      else [DefaultTable]
  | DefaultTable => []
  end.

Definition codec_classes : class_table :=
  {| attributes := ∅; ancestors := codec_ancestors |}.

(** The classes once the file is loaded. *)
Definition classes : class_table :=
  match load (λ _, true) decorated codec_classes with
  | Done classes => classes
  | _ => codec_classes
  end.

(** A clock that stands still, and table classes that define no data
    attributes. *)
Definition env (now : Z) : runtime :=
  {| clock := λ _, now; class_attributes := ∅ |}.

(** A clock that has moved on by one second when [modified] is merged. *)
Definition env_ticking (now : Z) : runtime :=
  {| clock := λ key, if decide (key = "modified") then (now + 1)%Z else now;
     class_attributes := ∅ |}.

(** Tables are stood for by numbers; the mergers that work on the
    tables add them up and return true. *)
Definition run (m : method) (table : Z) (self_tables : list Z)
  : result (Z * bool) :=
  Ok (foldr Z.add table self_tables, true).

Definition fonts : list (font Z) :=
  [ {| glyphOrder := [".notdef"; "a"];
       keys := ["GlyphOrder"; "hmtx"; "vmtx"; "cvt "; "gasp"];
       tables := {[ "hmtx" := 2%Z; "vmtx" := 3%Z; "cvt " := 4%Z; "gasp" := 5%Z ]} |};
    {| glyphOrder := [".notdef"; "b"];
       keys := ["GlyphOrder"; "hmtx"; "vmtx"; "cvt "; "gasp"];
       tables := {[ "hmtx" := 20%Z; "vmtx" := 30%Z; "cvt " := 40%Z; "gasp" := 50%Z ]} |} ].

Definition tags : list string := ["hmtx"; "vmtx"; "cvt "; "gasp"].

Definition merged_font : merged Z :=
  {| mega_glyphOrder := [".notdef#0"; "a#0"; ".notdef#1"; "b#1"];
     mega_tables := {[ "hmtx" := 22%Z; "vmtx" := 33%Z ]};
     log_lines := [ "Merged 'hmtx'.";
                    "Merged 'vmtx'.";
                    "Dropped 'cvt '.  No need to merge explicitly.";
                    "Dropping 'gasp'." ] |}.

(** Two hhea tables and what they merge to. *)
Definition hhea_tables : list (gmap string value) :=
  [ {[ "tableTag" := VStr "hhea"; "ascent" := VInt 800; "descent" := VInt (-200) ]};
    {[ "tableTag" := VStr "hhea"; "ascent" := VInt 900; "descent" := VInt (-250) ]} ].

Definition hhea_merged : gmap string value :=
  {[ "tableTag" := VStr "hhea"; "ascent" := VInt 900; "descent" := VInt (-250) ]}.

(** Two GDEF tables with ligature carets and glyph classes. *)
Definition gdef_tables : list (GDEF.table (list Z) (list nat)) :=
  [ {| GDEF.table_of :=
         {| GDEF.Version := 1%Q;
            GDEF.GDEF_LigCaretList :=
              Some {| GDEF.lcl_Coverage := {| GDEF.cov_glyphs := ["f_i#0"] |};
                      GDEF.lcl_LigGlyph := [[250%Z]];
                      GDEF.lcl_GlyphCount := 1 |};
            GDEF.GDEF_MarkAttachClassDef := None;
            GDEF.GDEF_GlyphClassDef :=
              Some {| GDEF.classDefs := {[ "f_i#0" := 2%Z ]} |};
            GDEF.GDEF_AttachList := None |} |};
    {| GDEF.table_of :=
         {| GDEF.Version := 1%Q;
            GDEF.GDEF_LigCaretList :=
              Some {| GDEF.lcl_Coverage :=
                        {| GDEF.cov_glyphs := ["f_l#1"; "f_f_i#1"] |};
                      GDEF.lcl_LigGlyph := [[260%Z]; [270%Z; 540%Z]];
                      GDEF.lcl_GlyphCount := 2 |};
            GDEF.GDEF_MarkAttachClassDef := None;
            GDEF.GDEF_GlyphClassDef :=
              Some {| GDEF.classDefs := {[ "f_l#1" := 2%Z; "acute#1" := 3%Z ]} |};
            GDEF.GDEF_AttachList := None |} |} ].

End Example.

(** * Properties *)

(** ** Strings and [repr] *)

Section strings.

Lemma occurs_app c s t : occurs c (s +:+ t) ↔ occurs c s ∨ occurs c t.
Proof. induction s as [|d s IH]; simpl; [tauto|]. rewrite IH. tauto. Qed.

(** A string is cut in one way only at its last occurrence of [c]. *)
Lemma cut_at_last c x y s t :
  ¬ occurs c s → ¬ occurs c t →
  x +:+ String c s = y +:+ String c t → x = y ∧ s = t.
Proof.
  intros Hs Ht. revert y. induction x as [|d x IH]; intros [|e y]; simpl.
  - by intros [= ->].
  - intros [= <- ->]. destruct Hs. apply occurs_app. right. by left.
  - intros [= -> <-]. destruct Ht. apply occurs_app. right. by left.
  - intros [= -> Heq]. apply IH in Heq as [-> ->]. done.
Qed.

Lemma pretty_N_go_no_hash x s :
  ¬ occurs "#" s → ¬ occurs "#" (pretty_N_go x s).
Proof.
  revert s. induction (N.lt_wf_0 x) as [x _ IH]. intros s Hs.
  destruct (decide (x = 0)%N) as [->|Hx]; [by rewrite pretty_N_go_0|].
  rewrite pretty_N_go_step by lia.
  apply IH; [apply N.div_lt; lia|].
  simpl. intros [Hc|Hc]; [|done].
  revert Hc. unfold pretty_N_char. by repeat case_match.
Qed.

(** The decimal digits of a number hold no ["#"]. *)
Lemma repr_no_hash n : ¬ occurs "#" (repr n).
Proof.
  unfold repr, pretty, pretty_nat, pretty, pretty_N.
  case_decide.
  - simpl. intros [Hc|[]]. discriminate Hc.
  - apply pretty_N_go_no_hash. simpl. tauto.
Qed.

Lemma repr_inj n m : repr n = repr m → n = m.
Proof. unfold repr. apply (inj pretty). Qed.

End strings.

(** ** The glyph-order unifier *)

Section glyph_orders.

Lemma rename_inj n m x y : rename n x = rename m y → n = m ∧ x = y.
Proof.
  unfold rename. simpl. intros Heq.
  apply cut_at_last in Heq as [-> Heq]; auto using repr_no_hash.
  split; [by apply repr_inj|done].
Qed.

(** The inner loop started at position [i] with enough rounds renames
    the entries from [i] on, in place, and appends them to [mega]. *)
Lemma rename_from_spec n rounds i glyphOrder mega :
  length glyphOrder ≤ i + rounds →
  rename_from n rounds i glyphOrder mega =
    (take i glyphOrder ++ (rename n <$> drop i glyphOrder),
     mega ++ (rename n <$> drop i glyphOrder)).
Proof.
  revert i glyphOrder mega.
  induction rounds as [|rounds IH]; intros i glyphOrder mega Hlen; simpl.
  - rewrite drop_ge by lia. rewrite take_ge by lia. by rewrite !app_nil_r.
  - destruct (glyphOrder !! i) as [glyphName|] eqn:Hi.
    + rewrite IH by (rewrite length_insert; lia).
      rewrite take_insert_lt by lia.
      rewrite drop_insert_lt by lia.
      rewrite (drop_S _ _ _ Hi). simpl.
      rewrite (take_S_r _ _ _ Hi).
      assert (length (take i glyphOrder) = i) as Htake.
      { apply lookup_lt_Some in Hi. rewrite length_take. lia. }
      rewrite <-(Nat.add_0_r i) at 1.
      rewrite <-Htake at 1.
      rewrite insert_app_r. simpl.
      by rewrite <-!app_assoc.
    + apply lookup_ge_None in Hi.
      rewrite drop_ge by lia. rewrite take_ge by lia. by rewrite !app_nil_r.
Qed.

Lemma rename_glyphOrder_spec n glyphOrder mega :
  rename_glyphOrder n glyphOrder mega =
    (rename n <$> glyphOrder, mega ++ (rename n <$> glyphOrder)).
Proof. unfold rename_glyphOrder. by rewrite rename_from_spec by lia. Qed.

(** The outer loop started at font [n] with enough rounds. *)
Lemma merge_from_spec rounds n glyphOrders mega :
  length glyphOrders ≤ n + rounds →
  merge_from rounds n glyphOrders mega =
    (take n glyphOrders
       ++ imap (λ k, fmap (rename (n + k))) (drop n glyphOrders),
     mega ++ concat (imap (λ k, fmap (rename (n + k))) (drop n glyphOrders))).
Proof.
  revert n glyphOrders mega.
  induction rounds as [|rounds IH]; intros n glyphOrders mega Hlen; simpl.
  - rewrite drop_ge by lia. rewrite take_ge by lia. by rewrite !app_nil_r.
  - destruct (glyphOrders !! n) as [glyphOrder|] eqn:Hn.
    + rewrite rename_glyphOrder_spec.
      rewrite IH by (rewrite length_insert; lia).
      rewrite take_insert_lt by lia.
      rewrite drop_insert_lt by lia.
      rewrite (drop_S _ _ _ Hn). rewrite imap_cons. simpl.
      rewrite (take_S_r _ _ _ Hn).
      assert (length (take n glyphOrders) = n) as Htake.
      { apply lookup_lt_Some in Hn. rewrite length_take. lia. }
      rewrite <-(Nat.add_0_r n) at 1.
      rewrite <-Htake at 1.
      rewrite insert_app_r. simpl. rewrite Nat.add_0_r.
      rewrite <-!app_assoc. simpl.
      assert (imap (λ k, fmap (rename (S (n + k)))) (drop (S n) glyphOrders)
              = imap ((λ k, fmap (rename (n + k))) ∘ S) (drop (S n) glyphOrders))
        as ->; [|done].
      apply imap_ext; intros; simpl; do 2 f_equal; lia.
    + apply lookup_ge_None in Hn.
      rewrite drop_ge by lia. rewrite take_ge by lia. by rewrite !app_nil_r.
Qed.

End glyph_orders.

Section glyph_orders_claims.


(** Every name of the renamed fonts from index [k] on carries a font
    index that is at least [k]. *)
Lemma elem_of_concat_imap_rename k (l : list (list string)) y :
  y ∈ concat (imap (λ n, fmap (rename (k + n))) l) →
  ∃ n x, k ≤ n ∧ y = rename n x.
Proof.
  revert k. induction l as [|go l IH]; intros k; [by intros ?%elem_of_nil|].
  rewrite imap_cons. simpl. rewrite elem_of_app. intros [Hy|Hy].
  - apply list_elem_of_fmap in Hy as (x & -> & _).
    exists k, x. split; [lia|]. by rewrite Nat.add_0_r.
  - assert (imap ((λ n, fmap (rename (k + n))) ∘ S) l
            = imap (λ n, fmap (rename (S k + n))) l) as Heq.
    { apply imap_ext; intros; simpl; do 2 f_equal; lia. }
    rewrite Heq in Hy. apply IH in Hy as (n & x & ? & ->).
    exists n, x. split; [lia|done].
Qed.

Lemma NoDup_concat_imap_rename k (l : list (list string)) :
  Forall NoDup l → NoDup (concat (imap (λ n, fmap (rename (k + n))) l)).
Proof.
  intros Hl. revert k. induction Hl as [|go l Hgo Hl IH]; intros k.
  { constructor. }
  rewrite imap_cons. simpl.
  assert (imap ((λ n, fmap (rename (k + n))) ∘ S) l
          = imap (λ n, fmap (rename (S k + n))) l) as ->.
  { apply imap_ext; intros; simpl; do 2 f_equal; lia. }
  apply NoDup_app. split_and!.
  - apply NoDup_fmap_2_strong; [|done].
    intros x y _ _ Heq. by apply rename_inj in Heq as [_ ->].
  - intros y Hy Hy'.
    apply list_elem_of_fmap in Hy as (x & -> & _).
    apply elem_of_concat_imap_rename in Hy' as (n & x' & Hn & Heq).
    apply rename_inj in Heq as [Heq _]. lia.
  - apply IH.
Qed.

Lemma mergeGlyphOrders_eq (glyphOrders : list (list string)) :
  _mergeGlyphOrders glyphOrders
  = (imap (λ n, fmap (rename n)) glyphOrders,
     concat (imap (λ n, fmap (rename n)) glyphOrders)).
Proof. unfold _mergeGlyphOrders. by rewrite merge_from_spec by lia. Qed.

(** The converse of the amended C1: a name twice in one font's glyph
    order is twice in the merged order. *)
Lemma mergeGlyphOrders_NoDup_inv (glyphOrders : list (list string)) :
  NoDup (_mergeGlyphOrders glyphOrders).2 → Forall NoDup glyphOrders.
Proof.
  rewrite mergeGlyphOrders_eq. simpl.
  change (λ n, fmap (rename n)) with (λ n, fmap (M:=list) (rename (0 + n))).
  generalize 0 as k. induction glyphOrders as [|go l IH]; intros k; [done|].
  rewrite imap_cons. simpl.
  assert (imap ((λ n, fmap (rename (k + n))) ∘ S) l
          = imap (λ n, fmap (rename (S k + n))) l) as ->.
  { apply imap_ext; intros; simpl; do 2 f_equal; lia. }
  intros (H1 & _ & H2)%NoDup_app. constructor.
  - by apply NoDup_fmap_1 in H1.
  - by apply IH in H2.
Qed.


(** C1, as amended.  When no input font's own glyph order holds the
    same name twice, the merged glyph order holds no name twice: names
    of different fonts never meet, whatever ["#"] they hold already. *)
Theorem mergeGlyphOrders_NoDup (glyphOrders : list (list string)) :
  Forall NoDup glyphOrders →
  NoDup (_mergeGlyphOrders glyphOrders).2.
Proof.
  intros Hl. rewrite mergeGlyphOrders_eq. simpl.
  by apply (NoDup_concat_imap_rename 0).
Qed.

(** Two fonts, each with a name that looks like a renamed name of the
    other. *)
Lemma mergeGlyphOrders_NoDup_witness :
  Forall NoDup [["a"; "a#1"]; ["a"; "a#0"]]
  ∧ NoDup (_mergeGlyphOrders [["a"; "a#1"]; ["a"; "a#0"]]).2.
Proof.
  assert (Forall NoDup [["a"; "a#1"]; ["a"; "a#0"]]) as H.
  { apply (bool_decide_unpack _). vm_compute. exact I. }
  split; [exact H|]. exact (mergeGlyphOrders_NoDup _ H).
Defined.

(** C1 as stated fails: a font whose glyph order holds a name twice
    gives a merged order that holds the renamed name twice. *)
Lemma mergeGlyphOrders_dup_counterexample :
  _mergeGlyphOrders [["a"; "a"]] = ([["a#0"; "a#0"]], ["a#0"; "a#0"])
  ∧ ¬ NoDup (_mergeGlyphOrders [["a"; "a"]]).2.
Proof.
  split; [reflexivity|].
  intros H. vm_compute in H. apply NoDup_cons in H as [H _].
  apply H. left.
Qed.

End glyph_orders_claims.

(** ** The [equal] combinator *)

Section equal.

Context {A : Type} `{EqDecision A}.

Lemma equal_all_same (v : A) (lst : list A) :
  lst ≠ [] → Forall (λ item, item = v) lst → equal lst = Ok v.
Proof.
  intros Hne Hall. destruct lst as [|x t]; [done|].
  apply Forall_cons in Hall as [-> Hall]. simpl.
  assert (forallb (λ item, bool_decide (item = v)) t = true) as ->; [|done].
  apply forallb_forall. intros y Hy. apply bool_decide_eq_true.
  rewrite Forall_forall in Hall. apply Hall. by apply list_elem_of_In.
Qed.

Lemma equal_differ (lst : list A) i j x y :
  lst !! i = Some x → lst !! j = Some y → x ≠ y →
  equal lst = Raise AssertionError.
Proof.
  intros Hi Hj Hxy. destruct lst as [|v t]; [done|]. simpl.
  destruct (forallb _ t) eqn:Hall; [|done].
  rewrite forallb_forall in Hall.
  assert (∀ k z, (v :: t) !! k = Some z → z = v) as Hsame.
  { intros [|k] z; simpl; [congruence|]. intros Hz.
    apply (bool_decide_eq_true_1 _), Hall, list_elem_of_In.
    by eapply list_elem_of_lookup_2. }
  destruct Hxy. by rewrite (Hsame _ _ Hi), (Hsame _ _ Hj).
Qed.

(** C3.  On a non-empty list of field values, [equal] returns the
    common value when all values are equal to it, and raises the
    assertion (the policy violation) when two of the values differ. *)
Theorem equal_policy (lst : list A) :
  lst ≠ [] →
  (∀ v, Forall (λ item, item = v) lst → equal lst = Ok v)
  ∧ ((∃ i j x y, lst !! i = Some x ∧ lst !! j = Some y ∧ x ≠ y) →
     equal lst = Raise AssertionError).
Proof.
  intros Hne. split.
  - intros v. by apply equal_all_same.
  - intros (i & j & x & y & Hi & Hj & Hxy). exact (equal_differ _ _ _ _ _ Hi Hj Hxy).
Qed.

End equal.

(** Two fonts with 1000 units per em; two fonts that disagree. *)
Lemma equal_policy_witness :
  [VInt 1000; VInt 1000] ≠ []
  ∧ equal [VInt 1000; VInt 1000] = Ok (VInt 1000)
  ∧ equal [VInt 1000; VInt 2048] = Raise AssertionError.
Proof.
  assert ([VInt 1000; VInt 1000] ≠ []) as H1 by discriminate.
  assert ([VInt 1000; VInt 2048] ≠ []) as H2 by discriminate.
  split; [exact H1|]. split.
  - apply (proj1 (equal_policy _ H1)). repeat constructor.
  - apply (proj2 (equal_policy _ H2)).
    exists 0, 1, (VInt 1000), (VInt 2048). repeat split; congruence.
Defined.

(** ** Dicts built by repeated [update] *)

Section updates.

Context {K : Type} `{Countable K} {V X : Type}.
Variable f : X → gmap K V.

(** After [for x in l: acc.update(f(x))], a key holds the value of the
    last [x] that has it, or the value it had before when none has it. *)
Lemma foldl_update_Some (l : list X) (acc : gmap K V) (k : K) (v : V) :
  foldl (λ acc x, f x ∪ acc) acc l !! k = Some v ↔
    (∃ i x, l !! i = Some x ∧ f x !! k = Some v
            ∧ ∀ j y, i < j → l !! j = Some y → f y !! k = None)
    ∨ (acc !! k = Some v ∧ ∀ y, y ∈ l → f y !! k = None).
Proof.
  revert acc. induction l as [|x l IH]; intros acc; simpl.
  - split.
    + intros Hk. right. split; [done|]. by intros y ?%elem_of_nil.
    + intros [(i & x & Hi & _)|[Hk _]]; [done|done].
  - rewrite IH, lookup_union_Some_raw. split.
    + intros [(i & y & Hi & Hy & Hlater)|[[Hx|[Hx Hacc]] Hnone]].
      * left. exists (S i), y. split_and!; [done|done|].
        intros [|j] z Hj; [lia|]. simpl. apply Hlater. lia.
      * left. exists 0, x. split_and!; [done|done|].
        intros [|j] z Hj; [lia|]. simpl. intros Hz. apply Hnone.
        by eapply list_elem_of_lookup_2.
      * right. split; [done|]. intros y [->|Hy]%elem_of_cons; [done|].
        by apply Hnone.
    + intros [(i & y & Hi & Hy & Hlater)|[Hacc Hnone]].
      * destruct i as [|i]; simpl in Hi.
        -- injection Hi as ->. right. split; [by left|].
           intros z Hz. apply list_elem_of_lookup_1 in Hz as [j Hj].
           apply (Hlater (S j)); [lia|done].
        -- left. exists i, y. split_and!; [done|done|].
           intros j z Hj. apply (Hlater (S j)). lia.
      * right. split.
        -- right. split; [|done]. apply Hnone. by left.
        -- intros y Hy. apply Hnone. by right.
Qed.

Lemma foldl_update_dom (l : list X) (acc : gmap K V) :
  dom (foldl (λ acc x, f x ∪ acc) acc l) = dom acc ∪ ⋃ (dom ∘ f <$> l).
Proof.
  revert acc. induction l as [|x l IH]; intros acc; simpl.
  - set_solver.
  - rewrite IH, dom_union_L. set_solver.
Qed.

End updates.

(** ** The generic field merger *)

Section mergeKeys.

Variable env : runtime.
Variable tables : list (gmap string value).
Variable logic : gmap string combinator.

Lemma py_lt_not_KeyError a b : py_lt a b ≠ Raise KeyError.
Proof. by destruct a, b. Qed.

Lemma call_not_KeyError now c lst : call now c lst ≠ Raise KeyError.
Proof.
  destruct c; simpl; try done.
  - unfold equal. destruct lst; [done|]. by case_match.
  - by destruct lst.
  - by destruct lst.
  - destruct lst as [|x lst]; [done|]. simpl. revert x.
    induction lst as [|y lst IH]; intros x; simpl; [done|].
    destruct x, y; first [done | apply IH].
  - destruct lst as [|x lst]; [done|]. simpl. revert x.
    induction lst as [|y lst IH]; intros x; simpl; [done|].
    destruct (py_lt x y) as [b|e] eqn:Hlt; simpl.
    + apply IH.
    + intros [= ->]. by apply py_lt_not_KeyError in Hlt.
  - destruct lst as [|x lst]; [done|]. simpl. revert x.
    induction lst as [|y lst IH]; intros x; simpl; [done|].
    destruct (py_lt y x) as [b|e] eqn:Hlt; simpl.
    + apply IH.
    + intros [= ->]. by apply py_lt_not_KeyError in Hlt.
  - unfold py_sum. generalize 0%Z.
    induction lst as [|y lst IH]; intros z; simpl; [done|].
    destruct y; first [done | apply IH].
Qed.

Lemma getattrs_not_KeyError ts key : getattrs env ts key ≠ Raise KeyError.
Proof.
  induction ts as [|t ts IH]; simpl; [done|].
  destruct (table_getattr env t key); [|done].
  destruct (getattrs env ts key); simpl; [done|]. congruence.
Qed.

(** A [KeyError] of the loop comes from the policy lookup of one of the
    keys. *)
Lemma mergeKeys_loop_KeyError keys return_table :
  mergeKeys_loop env tables logic keys return_table = Raise KeyError →
  ∃ key, key ∈ keys ∧ lookup_logic logic key = Raise KeyError.
Proof.
  revert return_table. induction keys as [|key keys IH]; intros rt; simpl; [done|].
  destruct (lookup_logic logic key) as [c|e] eqn:Hc; simpl.
  - assert (∀ rt', mergeKeys_loop env tables logic keys rt' = Raise KeyError →
              ∃ key0, key0 ∈ key :: keys ∧ lookup_logic logic key0 = Raise KeyError)
      as Hrest.
    { intros rt' (key0 & ? & ?)%IH. exists key0. split; [by right|done]. }
    case_decide; [apply Hrest|].
    destruct (getattrs env tables key) as [lst|e] eqn:Hlst; simpl.
    + destruct (call _ c lst) as [v|e] eqn:Hv; simpl; [apply Hrest|].
      intros [= ->]. by apply call_not_KeyError in Hv.
    + intros [= ->]. by apply getattrs_not_KeyError in Hlst.
  - intros [= ->]. exists key. split; [by left|done].
Qed.

(** A key with no policy and no wildcard ends the loop in an error. *)
Lemma mergeKeys_loop_lookup_fails keys return_table key e :
  key ∈ keys → lookup_logic logic key = Raise e →
  ∃ e', mergeKeys_loop env tables logic keys return_table = Raise e'.
Proof.
  revert return_table. induction keys as [|key' keys IH]; intros rt Hin Hkey.
  { by apply elem_of_nil in Hin. }
  simpl. destruct (decide (key = key')) as [<-|Hne].
  { rewrite Hkey. by eexists. }
  apply elem_of_cons in Hin as [?|Hin]; [done|].
  destruct (lookup_logic logic key') as [c|e1]; simpl; [|by eexists].
  case_decide; [by apply IH|].
  destruct (getattrs env tables key') as [lst|e2]; simpl; [|by eexists].
  destruct (call _ c lst) as [v|e3]; simpl; [|by eexists].
  by apply IH.
Qed.

(** Keys the loop does not walk keep their value. *)
Lemma mergeKeys_loop_other keys return_table out key :
  mergeKeys_loop env tables logic keys return_table = Ok out →
  key ∉ keys → out !! key = return_table !! key.
Proof.
  revert return_table. induction keys as [|key' keys IH]; intros rt; simpl.
  { by intros [= ->]. }
  intros Hloop [Hne Hnin]%not_elem_of_cons.
  destruct (lookup_logic logic key') as [c|e]; simpl in Hloop; [|done].
  case_decide; [by apply IH|].
  destruct (getattrs env tables key') as [lst|e]; simpl in Hloop; [|done].
  destruct (call _ c lst) as [v|e]; simpl in Hloop; [|done].
  rewrite (IH _ Hloop Hnin). by rewrite lookup_insert_ne.
Qed.

(** Keys whose policy is [ignore] keep their value. *)
Lemma mergeKeys_loop_ignored keys return_table out key :
  mergeKeys_loop env tables logic keys return_table = Ok out →
  lookup_logic logic key = Ok c_ignore → out !! key = return_table !! key.
Proof.
  revert return_table. induction keys as [|key' keys IH]; intros rt; simpl.
  { by intros [= ->]. }
  intros Hloop Hkey.
  destruct (lookup_logic logic key') as [c|e] eqn:Hc; simpl in Hloop; [|done].
  case_decide; [by apply IH|].
  destruct (getattrs env tables key') as [lst|e]; simpl in Hloop; [|done].
  destruct (call _ c lst) as [v|e]; simpl in Hloop; [|done].
  rewrite (IH _ Hloop Hkey). rewrite lookup_insert_ne; [done|].
  intros ->. congruence.
Qed.

(** A key the loop walks, with a policy other than [ignore], ends up with
    the policy's result on the list of the tables' values. *)
Lemma mergeKeys_loop_merged keys return_table out key c :
  mergeKeys_loop env tables logic keys return_table = Ok out →
  key ∈ keys → lookup_logic logic key = Ok c → c ≠ c_ignore →
  ∃ lst v, getattrs env tables key = Ok lst
           ∧ call (clock env key) c lst = Ok v
           ∧ out !! key = Some v.
Proof.
  revert return_table. induction keys as [|key' keys IH]; intros rt Hloop Hin Hc Hni.
  { by apply elem_of_nil in Hin. }
  simpl in Hloop.
  destruct (lookup_logic logic key') as [c'|e] eqn:Hc'; simpl in Hloop; [|done].
  destruct (decide (key ∈ keys)) as [Hin'|Hnin].
  { case_decide; [by eapply IH|].
    destruct (getattrs env tables key') as [lst|e]; simpl in Hloop; [|done].
    destruct (call _ c' lst) as [v|e]; simpl in Hloop; [|done].
    by eapply IH. }
  apply elem_of_cons in Hin as [->|?]; [|done].
  assert (c' = c) as -> by congruence.
  case_decide; [done|].
  destruct (getattrs env tables key') as [lst|e]; simpl in Hloop; [|done].
  destruct (call _ c lst) as [v|e] eqn:Hv; simpl in Hloop; [|done].
  exists lst, v. split_and!; [done|done|].
  rewrite (mergeKeys_loop_other _ _ _ _ Hloop Hnin).
  apply lookup_insert_eq.
Qed.

End mergeKeys.

(** ** The policies and their wildcard *)

Section policies.

Lemma lookup_logic_wildcard logic key c :
  logic !! "*" = Some c → is_Ok (lookup_logic logic key).
Proof.
  intros Hstar. unfold lookup_logic, is_Ok.
  destruct (logic !! key); [by eexists|]. rewrite Hstar. by eexists.
Qed.

Lemma lookup_logic_no_wildcard logic key :
  logic !! "*" = None →
  lookup_logic logic key
  = match logic !! key with
    | Some merge_logic => Ok merge_logic
    | None => Raise KeyError
    end.
Proof. intros Hstar. unfold lookup_logic. by rewrite Hstar. Qed.

Lemma wildcard_in_mergeKeys k :
  k ≠ head → is_Some (logic_in_mergeKeys k !! "*").
Proof. destruct k; intros Hk; try done; vm_compute; by eexists. Qed.

(** A kind with a wildcard: [_mergeKeys] does not end in the lookup's
    [KeyError], whatever fields the tables carry. *)
Lemma mergeKeys_no_KeyError k keys env tables return_table :
  k ≠ head →
  _mergeKeys_in keys env tables return_table (logic_of k) ≠ Raise KeyError.
Proof.
  intros Hk Hraise. unfold _mergeKeys_in in Hraise.
  apply mergeKeys_loop_KeyError in Hraise as (key & _ & Hkey).
  destruct (wildcard_in_mergeKeys k Hk) as [c Hc].
  destruct (lookup_logic_wildcard _ key c Hc) as [c' Hc'].
  unfold logic_in_mergeKeys in Hc'. congruence.
Qed.

(** The fields the head policy covers inside [_mergeKeys]. *)
Lemma head_policy_dom :
  dom (logic_in_mergeKeys head)
  = list_to_set
      ["tableTag"; "tableVersion"; "fontRevision"; "checkSumAdjustment";
       "magicNumber"; "flags"; "unitsPerEm"; "created"; "modified";
       "xMin"; "yMin"; "xMax"; "yMax"; "macStyle"; "lowestRecPPEM";
       "fontDirectionHint"; "indexToLocFormat"; "glyphDataFormat"].
Proof.
  unfold logic_in_mergeKeys, logic_of, head_logic.
  rewrite dom_insert_L, dom_list_to_map_L. simpl. set_solver.
Qed.

(** C7, as amended.  The maxp, hhea, OS/2 and post policies hold a
    wildcard entry, so their combinator lookup succeeds for every field
    name and [_mergeKeys] never ends in the lookup's [KeyError].  The head
    policy holds no wildcard: its lookup succeeds exactly for the fields
    it lists (with [tableTag]) and is a [KeyError] for any other. *)
Theorem policy_wildcards :
  (∀ k, k ≠ head →
     is_Some (logic_of k !! "*")
     ∧ (∀ key, is_Ok (lookup_logic (logic_in_mergeKeys k) key))
     ∧ (∀ keys env tables return_table,
          _mergeKeys_in keys env tables return_table (logic_of k)
          ≠ Raise KeyError))
  ∧ logic_of head !! "*" = None
  ∧ (∀ key, lookup_logic (logic_in_mergeKeys head) key
            = match logic_in_mergeKeys head !! key with
              | Some merge_logic => Ok merge_logic
              | None => Raise KeyError
              end).
Proof.
  split_and!.
  - intros k Hk. split_and!.
    + destruct k; try done; vm_compute; by eexists.
    + intros key. destruct (wildcard_in_mergeKeys k Hk) as [c Hc].
      by eapply lookup_logic_wildcard.
    + intros. by apply mergeKeys_no_KeyError.
  - reflexivity.
  - intros key. by apply lookup_logic_no_wildcard.
Qed.

Lemma policy_wildcards_witness :
  maxp ≠ head
  ∧ is_Some (logic_of maxp !! "*")
  ∧ is_Ok (lookup_logic (logic_in_mergeKeys maxp) "maxZones").
Proof.
  assert (maxp ≠ head) as Hk by discriminate.
  destruct (proj1 policy_wildcards maxp Hk) as (Hstar & Hlookup & _).
  split; [exact Hk|]. split; [exact Hstar|]. exact (Hlookup "maxZones").
Defined.

(** C7 as stated fails: the head policy has no wildcard entry, and a
    head table that carries a field outside the policy ends the merge in
    the [KeyError] of [logic['*']]. *)
Lemma head_no_wildcard_counterexample :
  logic_of head !! "*" = None
  ∧ lookup_logic (logic_in_mergeKeys head) "glyphNames" = Raise KeyError
  ∧ merge_scalar head (Example.env 0)
      [ {[ "tableTag" := VStr "head"; "unitsPerEm" := VInt 1000;
           "glyphNames" := VList [] ]} ]
    = Raise KeyError.
Proof. split_and!; reflexivity. Qed.

End policies.

(** ** The PostScript-info table *)

Section post.

Variable env : runtime.

Lemma update_mappings_spec tables self out m :
  self !! "mapping" = Some (VDict m) →
  Post.update_mappings env tables self = Ok out →
  out = <["mapping":=VDict (Post.mappings_union env tables m)]> self
  ∧ Forall (λ t : gmap string value,
              ∀ v, table_getattr env t "mapping" = Some v → ∃ mt, v = VDict mt)
      tables.
Proof.
  revert self m. induction tables as [|t tables IH]; intros self m Hself; simpl.
  - intros [= <-]. split; [|done]. by rewrite insert_id.
  - destruct (table_getattr env t "mapping") as [v|] eqn:Ht.
    + unfold Post.mapping_update at 1. rewrite Hself.
      destruct v as [| | |theirs]; simpl; try done.
      intros Hrest. eapply IH in Hrest as [-> Hall]; [|apply lookup_insert_eq].
      split; [by rewrite insert_insert_eq|].
      constructor; [|done]. intros v Hv. rewrite Ht in Hv.
      injection Hv as <-. by eexists.
    + intros Hrest. eapply IH in Hrest as [-> Hall]; [|done].
      split; [done|]. constructor; [|done]. intros v Hv. by rewrite Ht in Hv.
Qed.

(** Where the union gets the name of a glyph from: the last table that
    has a [mapping] with that glyph. *)
Lemma mappings_union_lookup (tables : list (gmap string value)) name psName :
  Forall (λ t : gmap string value,
            ∀ v, table_getattr env t "mapping" = Some v → ∃ mt, v = VDict mt)
    tables →
  Post.mappings_union env tables ∅ !! name = Some psName ↔
    ∃ i t m, tables !! i = Some t
             ∧ table_getattr env t "mapping" = Some (VDict m)
             ∧ m !! name = Some psName
             ∧ ∀ j t' m', i < j → tables !! j = Some t' →
                          table_getattr env t' "mapping" = Some (VDict m') →
                          m' !! name = None.
Proof.
  intros Hdicts.
  set (get := λ t : gmap string value,
         match table_getattr env t "mapping" with
         | Some (VDict m) => m
         | _ => ∅
         end).
  assert (∀ acc, Post.mappings_union env tables acc
                 = foldl (λ acc t, get t ∪ acc) acc tables) as ->.
  { clear Hdicts. induction tables as [|t tables IH]; intros acc; simpl; [done|].
    rewrite <-IH. unfold get.
    destruct (table_getattr env t "mapping") as [[]|];
      by rewrite ?(left_id_L ∅ (∪)). }
  rewrite foldl_update_Some. split.
  - intros [(i & t & Hi & Ht & Hlater)|[? _]]; [|done].
    unfold get in Ht.
    destruct (table_getattr env t "mapping") as [[| | |m]|] eqn:Hm; try done.
    exists i, t, m. split_and!; [done..|].
    intros j t' m' Hj Ht' Hm'. specialize (Hlater j t' Hj Ht').
    unfold get in Hlater. by rewrite Hm' in Hlater.
  - intros (i & t & m & Hi & Hm & Hname & Hlater). left.
    exists i, t. split_and!; [done| |].
    + unfold get. by rewrite Hm.
    + intros j t' Hj Ht'. unfold get.
      destruct (table_getattr env t' "mapping") as [[| | |m']|] eqn:Hm'; try done.
      by eapply Hlater.
Qed.

(** C10.  A post merge that succeeds leaves [extraNames] the empty list,
    whatever the sources hold there, and leaves in [mapping] the union of
    the mappings of the sources that have the attribute: a glyph has the
    name the last such source gives it. *)
Theorem post_merge_mapping keys (tables : list (gmap string value)) out b :
  Post.merge_in keys env tables = Ok (out, b) →
  out !! "extraNames" = Some (VList [])
  ∧ out !! "mapping" = Some (VDict (Post.mappings_union env tables ∅))
  ∧ ∀ name psName,
      Post.mappings_union env tables ∅ !! name = Some psName ↔
        ∃ i t m, tables !! i = Some t
                 ∧ table_getattr env t "mapping" = Some (VDict m)
                 ∧ m !! name = Some psName
                 ∧ ∀ j t' m', i < j → tables !! j = Some t' →
                     table_getattr env t' "mapping" = Some (VDict m') →
                     m' !! name = None.
Proof.
  unfold Post.merge_in. intros Hmerge.
  destruct (_mergeKeys_in keys env tables (new_table "post") post_logic)
    as [self|e]; simpl in Hmerge; [|done].
  destruct (Post.update_mappings env tables (<["mapping":=VDict ∅]> self))
    as [self'|e] eqn:Hupd; simpl in Hmerge; [|done].
  injection Hmerge as <- <-.
  apply (update_mappings_spec _ _ _ ∅) in Hupd as [-> Hdicts];
    [|apply lookup_insert_eq].
  split_and!.
  - apply lookup_insert_eq.
  - rewrite lookup_insert_ne by done. apply lookup_insert_eq.
  - intros name psName. by apply mappings_union_lookup.
Qed.

End post.

Section post_examples.

(** Two post tables, one glyph each. *)
Lemma post_merge_mapping_witness :
  let t0 : gmap string value :=
    {[ "tableTag" := VStr "post"; "formatType" := VInt 2;
       "mapping" := VDict {[ "a#0" := "a" ]}; "extraNames" := VList ["a"] ]} in
  let t1 : gmap string value :=
    {[ "tableTag" := VStr "post"; "formatType" := VInt 3;
       "mapping" := VDict {[ "a#1" := "a" ]}; "extraNames" := VList ["a"] ]} in
  let out : gmap string value :=
    {[ "tableTag" := VStr "post"; "formatType" := VInt 3;
       "mapping" := VDict {[ "a#0" := "a"; "a#1" := "a" ]};
       "extraNames" := VList [] ]} in
  Post.merge (Example.env 0) [t0; t1] = Ok (out, true)
  ∧ out !! "extraNames" = Some (VList [])
  ∧ out !! "mapping"
    = Some (VDict (Post.mappings_union (Example.env 0) [t0; t1] ∅)).
Proof.
  intros t0 t1 out.
  assert (Post.merge_in (elements (allKeys [t0; t1])) (Example.env 0) [t0; t1]
          = Ok (out, true))
    as Hmerge by (vm_compute; reflexivity).
  split; [exact Hmerge|].
  destruct (post_merge_mapping _ _ _ _ _ Hmerge) as (Hextra & Hmapping & _).
  split; [exact Hextra|exact Hmapping].
Defined.

End post_examples.

(** ** The metrics tables *)

Section metrics.

Import Metrics.

(** C5.  The merged metrics hold exactly the glyph names the source
    tables hold, and each name has the metrics of the source that defines
    it, the latest one in input order when several do. *)
Theorem metrics_merge_union (tables : list Metrics.table) :
  dom (metrics (Metrics.merge tables).1) = ⋃ (dom ∘ metrics <$> tables)
  ∧ ∀ name v,
      metrics (Metrics.merge tables).1 !! name = Some v ↔
        ∃ i t, tables !! i = Some t ∧ metrics t !! name = Some v
               ∧ ∀ j t', i < j → tables !! j = Some t' →
                         metrics t' !! name = None.
Proof.
  unfold Metrics.merge. simpl. split.
  - rewrite foldl_update_dom. set_solver.
  - intros name v. rewrite foldl_update_Some. split.
    + by intros [?|[? _]].
    + intros ?. by left.
Qed.

End metrics.

(** ** The character map *)

Section cmap.

Import Cmap.

Lemma foldl_max_spec (l : list Z) (x : Z) :
  (foldl Z.max x l = x ∨ foldl Z.max x l ∈ l)
  ∧ (x ≤ foldl Z.max x l)%Z
  ∧ ∀ y, y ∈ l → (y ≤ foldl Z.max x l)%Z.
Proof.
  revert x. induction l as [|y l IH]; intros x; simpl.
  - split_and!; [by left|lia|]. by intros y ?%elem_of_nil.
  - destruct (IH (Z.max x y)) as (Hin & Hle & Hall). split_and!.
    + destruct Hin as [Heq|Hin]; [|right; by right].
      rewrite Heq. destruct (Z.max_spec x y) as [[_ ->]|[_ ->]];
        [right; by left|by left].
    + lia.
    + intros z [->|Hz]%elem_of_cons; [lia|by apply Hall].
Qed.

(** [max] of a sequence: one of its members, and no member is larger. *)
Lemma max_int_spec (l : list Z) (m : Z) :
  max_int l = Ok m → m ∈ l ∧ ∀ y, y ∈ l → (y ≤ m)%Z.
Proof.
  destruct l as [|x l]; simpl; [done|]. intros [= <-].
  destruct (foldl_max_spec l x) as (Hin & Hle & Hall). split.
  - destruct Hin as [->|Hin]; [by left|by right].
  - intros y [->|Hy]%elem_of_cons; [done|by apply Hall].
Qed.

(** What a successful merge returns. *)
Lemma cmap_merge_Ok m_tables out b :
  Cmap.merge m_tables = Ok (out, b) →
  ∃ fmt enc,
    max_int (format <$> cmapTables m_tables) = Ok fmt
    ∧ max_int (platEncID <$> cmapTables m_tables) = Ok enc
    ∧ out = {| tableVersion := 0; numSubTables := 1;
               tables := [ {| format := fmt; platformID := 3; platEncID := enc;
                              language := 0;
                              cmap := update_all (cmapTables m_tables) |} ] |}
    ∧ b = true.
Proof.
  unfold Cmap.merge. destruct (negb _); [done|].
  destruct (max_int (format <$> _)) as [fmt|e]; simpl; [|done].
  destruct (max_int (platEncID <$> _)) as [enc|e]; simpl; [|done].
  intros [= <- <-]. by exists fmt, enc.
Qed.

(** The merge succeeds exactly when some subtable is selected and every
    selected subtable has format 4 or 12. *)
Lemma cmap_merge_succeeds m_tables :
  is_Ok (Cmap.merge m_tables) ↔
    cmapTables m_tables ≠ [] ∧ Forall (λ t, supported t = true) (cmapTables m_tables).
Proof.
  unfold Cmap.merge, is_Ok. split.
  - intros [[out b] Hm].
    destruct (forallb supported _) eqn:Hs; simpl in Hm; [|done].
    split.
    + intros Heq. rewrite Heq in Hm. done.
    + apply Forall_forall. intros t Ht. rewrite forallb_forall in Hs.
      apply Hs. by apply list_elem_of_In.
  - intros [Hne Hall].
    assert (forallb supported (cmapTables m_tables) = true) as ->.
    { apply forallb_forall. intros t Ht. rewrite Forall_forall in Hall.
      apply Hall. by apply list_elem_of_In. }
    simpl. destruct (cmapTables m_tables) as [|t l]; [done|]. simpl.
    by eexists.
Qed.

(** C4.  After a successful character-map merge the table holds one
    subtable; its format is the largest format among the selected
    subtables; a code point maps to the glyph of the latest selected
    subtable that has it, hence to the glyph of the only one when exactly
    one has it. *)
Theorem cmap_merge_mapping (m_tables : list Cmap.table) out b :
  Cmap.merge m_tables = Ok (out, b) →
  ∃ cmapTable,
    tables out = [cmapTable]
    ∧ numSubTables out = 1
    ∧ format cmapTable ∈ format <$> cmapTables m_tables
    ∧ (∀ t, t ∈ cmapTables m_tables → (format t ≤ format cmapTable)%Z)
    ∧ (∀ c g,
         cmap cmapTable !! c = Some g ↔
           ∃ i t, cmapTables m_tables !! i = Some t ∧ cmap t !! c = Some g
                  ∧ ∀ j t', i < j → cmapTables m_tables !! j = Some t' →
                            cmap t' !! c = None)
    ∧ (∀ c g i t,
         cmapTables m_tables !! i = Some t → cmap t !! c = Some g →
         (∀ j t', j ≠ i → cmapTables m_tables !! j = Some t' →
                  cmap t' !! c = None) →
         cmap cmapTable !! c = Some g).
Proof.
  intros (fmt & enc & Hfmt & Henc & -> & ->)%cmap_merge_Ok.
  eexists. split; [done|]. simpl.
  apply max_int_spec in Hfmt as [Hin Hmax].
  assert (∀ c g,
    update_all (cmapTables m_tables) !! c = Some g ↔
      ∃ i t, cmapTables m_tables !! i = Some t ∧ cmap t !! c = Some g
             ∧ ∀ j t', i < j → cmapTables m_tables !! j = Some t' →
                       cmap t' !! c = None) as Hupd.
  { intros c g. unfold update_all. rewrite foldl_update_Some. split.
    - by intros [?|[? _]].
    - intros ?. by left. }
  split_and!; [done|done| |done|].
  - intros t Ht. apply Hmax. by apply list_elem_of_fmap_2.
  - intros c g i t Hi Hg Hothers. apply Hupd. exists i, t.
    split_and!; [done|done|]. intros j t' Hj. apply Hothers. lia.
Qed.


End cmap.

Section cmap_examples.

Import Cmap.

(** Font A has a Windows BMP subtable and a Macintosh one, font B a
    Windows full-repertoire subtable; both map the space. *)
Lemma cmap_merge_mapping_witness :
  let a_win := {| format := 4; platformID := 3; platEncID := 1; language := 0;
                  cmap := {[ 97%Z := "a#0"; 32%Z := "space#0" ]} |} in
  let a_mac := {| format := 0; platformID := 1; platEncID := 0; language := 0;
                  cmap := {[ 97%Z := "a#0" ]} |} in
  let b_win := {| format := 12; platformID := 3; platEncID := 10; language := 0;
                  cmap := {[ 98%Z := "a#1"; 32%Z := "space#1" ]} |} in
  let m_tables :=
    [ {| tableVersion := 0; numSubTables := 2; tables := [a_mac; a_win] |};
      {| tableVersion := 0; numSubTables := 1; tables := [b_win] |} ] in
  ∃ out, Cmap.merge m_tables = Ok (out, true)
    ∧ ∃ cmapTable, tables out = [cmapTable]
        ∧ (format b_win ≤ format cmapTable)%Z
        ∧ cmap cmapTable !! 97%Z = Some "a#0"
        ∧ cmap cmapTable !! 32%Z = Some "space#1".
Proof.
  intros a_win a_mac b_win m_tables.
  destruct (Cmap.merge m_tables) as [[out b]|e] eqn:Hmerge; [|by vm_compute in Hmerge].
  assert (b = true) as -> by (vm_compute in Hmerge; congruence).
  assert (cmapTables m_tables = [a_win; b_win]) as Hsel by reflexivity.
  exists out. split; [done|].
  destruct (cmap_merge_mapping _ _ _ Hmerge)
    as (cmapTable & Htables & _ & _ & Hmax & _ & Hone).
  exists cmapTable. split_and!; [done| | |].
  - apply Hmax. rewrite Hsel. right. left.
  - apply (Hone _ _ 0 a_win); [by rewrite Hsel|done|].
    rewrite Hsel. intros [|[|j]] t' Hj [= <-]; done.
  - destruct (cmap_merge_mapping _ _ _ Hmerge)
      as (cmapTable' & Htables' & _ & _ & _ & Hlast & _).
    assert (cmapTable' = cmapTable) as -> by congruence.
    apply Hlast. exists 1, b_win. rewrite Hsel. split_and!; [done|done|].
    intros [|[|j]] t' Hj; (lia || done).
Defined.


End cmap_examples.

(** ** The glyph-definition table *)

Section gdef.

Import GDEF.

Context {LigGlyphRecord AttachPointRecord : Type}.

Section field.

Context {X : Type}.
Variable field : (GDEF.GDEF LigGlyphRecord AttachPointRecord) → option X.

Lemma any_has_true (m_tables : list (GDEF.table LigGlyphRecord AttachPointRecord)) :
  any_has field m_tables = true ↔
    Exists (λ t, is_Some (field (table_of t))) m_tables.
Proof.
  unfold any_has. rewrite existsb_exists, Exists_exists. split.
  - intros (t & Ht & Hs). exists t. split; [by apply list_elem_of_In|].
    by apply bool_decide_eq_true in Hs.
  - intros (t & Ht & Hs). exists t. split; [by apply list_elem_of_In|].
    by apply bool_decide_eq_true.
Qed.


Lemma only_source_has_any (m_tables : list (GDEF.table LigGlyphRecord AttachPointRecord)) x :
  only_source_has field m_tables x → any_has field m_tables = true.
Proof.
  intros (before & t & after & -> & Ht & _). apply any_has_true.
  apply Exists_app. right. apply Exists_cons. left. by rewrite Ht.
Qed.

(** The lists gathered from tables that all lack the substructure. *)
Lemma gather_none {R} (cov : X → Coverage) (recs : X → list R)
    (l : list (GDEF.table LigGlyphRecord AttachPointRecord)) acc :
  Forall (λ t, field (table_of t) = None) l →
  foldl (λ '(glyphs, records) (t : (GDEF.table LigGlyphRecord AttachPointRecord)),
           match field (table_of t) with
           | Some x => (glyphs ++ cov_glyphs (cov x), records ++ recs x)
           | None => (glyphs, records)
           end) acc l = acc.
Proof.
  intros Hl. revert acc. induction Hl as [|t l Ht Hl IH]; intros [g r]; simpl.
  - done.
  - rewrite Ht. apply IH.
Qed.

Lemma gather_only {R} (cov : X → Coverage) (recs : X → list R)
    (m_tables : list (GDEF.table LigGlyphRecord AttachPointRecord)) x :
  only_source_has field m_tables x →
  gather field cov recs m_tables = (cov_glyphs (cov x), recs x).
Proof.
  intros (before & t & after & -> & Ht & [Hb Ha]%Forall_app).
  unfold gather. rewrite foldl_app. rewrite (gather_none _ _ _ _ Hb).
  simpl. rewrite Ht. simpl. by rewrite (gather_none _ _ _ _ Ha).
Qed.

End field.





(** A source whose own count is the length of its record list comes out
    of the merge as it is. *)
Lemma merge_LigCaretList_only_eq
    (m_tables : list (GDEF.table LigGlyphRecord AttachPointRecord)) x :
  only_source_has GDEF_LigCaretList m_tables x →
  lcl_GlyphCount x = length (lcl_LigGlyph x) →
  merge_LigCaretList m_tables = Some x.
Proof.
  intros Hx Hcount. unfold merge_LigCaretList.
  rewrite (only_source_has_any _ _ _ Hx), (gather_only _ _ _ _ _ Hx).
  destruct x as [[glyphs] ligGlyphs n]. simpl in *. by rewrite Hcount.
Qed.


End gdef.

Section gdef_examples.

Import GDEF.


(** C6 as stated fails on the record count: the only source's list of
    ligature carets holds no record and the count 7; the merged list has
    the source's coverage and records but the count 0, so it is not the
    source's list. *)
Lemma GDEF_merge_count_counterexample :
  let carets : LigCaretList (list Z) :=
    {| lcl_Coverage := {| cov_glyphs := [] |};
       lcl_LigGlyph := [];
       lcl_GlyphCount := 7 |} in
  let t : GDEF.table (list Z) (list nat) :=
    {| table_of := {| Version := 1%Q;
                      GDEF_LigCaretList := Some carets;
                      GDEF_MarkAttachClassDef := None;
                      GDEF_GlyphClassDef := None;
                      GDEF_AttachList := None |} |} in
  let out := table_of (GDEF.merge [t]).1 in
  only_source_has GDEF_LigCaretList [t] carets
  ∧ GDEF_LigCaretList out ≠ Some carets
  ∧ GDEF_LigCaretList out
    = Some {| lcl_Coverage := {| cov_glyphs := [] |};
              lcl_LigGlyph := [];
              lcl_GlyphCount := 0 |}.
Proof.
  intros carets t out. split_and!.
  - exists [], t, []. split_and!; [reflexivity|reflexivity|constructor].
  - vm_compute. discriminate.
  - reflexivity.
Qed.

End gdef_examples.

(** ** The glyph-outline table *)

Section glyf.

Import Glyf.

Context {Glyph : Type}.
Variable removeHinting : Glyph → Glyph.
Variable isComposite : Glyph → bool.
Variable expand : Glyf.table → Glyph → Glyph.




(** The two components of the loop state go their own way. *)
Lemma merge_unfold (tables : list Glyf.table) (store : gmap ref Glyph) :
  merge removeHinting isComposite expand tables store
  = (foldl (process_table removeHinting isComposite expand) store tables,
     foldl (λ self_glyphs t, glyphs t ∪ self_glyphs) ∅ tables,
     true).
Proof.
  unfold merge. generalize (∅ : gmap string ref) as acc. revert store.
  induction tables as [|t tables IH]; intros store acc; simpl; [done|].
  apply IH.
Qed.






End glyf.

Section glyf_examples.

Import Glyf.



End glyf_examples.

(** ** [equal] fields in the generic field merger *)

Section equal_fields.

Lemma equal_Ok_inv {A} `{EqDecision A} (lst : list A) v :
  equal lst = Ok v → Forall (λ item, item = v) lst.
Proof.
  destruct lst as [|x t]; simpl; [done|].
  destruct (forallb _ t) eqn:Hall; [|done]. intros [= <-].
  constructor; [done|]. apply Forall_forall. intros y Hy.
  rewrite forallb_forall in Hall.
  apply (bool_decide_eq_true_1 _), Hall. by apply list_elem_of_In.
Qed.

(** A field under [equal] that every source table has: a merge that
    succeeds keeps the common value, and the merge does not succeed when
    two tables differ on the field. *)
Lemma mergeKeys_equal_field keys env tables return_table logic key lst :
  key ∈ keys →
  lookup_logic (<["tableTag":=c_equal]> logic) key = Ok c_equal →
  getattrs env tables key = Ok lst →
  (∀ out, _mergeKeys_in keys env tables return_table logic = Ok out →
     ∃ v, Forall (λ item, item = v) lst ∧ out !! key = Some v)
  ∧ ((∃ i j x y, lst !! i = Some x ∧ lst !! j = Some y ∧ x ≠ y) →
     ∃ e, _mergeKeys_in keys env tables return_table logic = Raise e).
Proof.
  intros Hin Hlogic Hlst. unfold _mergeKeys_in.
  assert (∀ out,
    mergeKeys_loop env tables (<["tableTag":=c_equal]> logic) keys return_table
    = Ok out → ∃ v, equal lst = Ok v ∧ out !! key = Some v) as Hok.
  { intros out Hout.
    destruct (mergeKeys_loop_merged _ _ _ _ _ _ _ _ Hout Hin Hlogic)
      as (lst' & v & Hlst' & Hv & Hkey); [done|].
    exists v. split; [|done]. simpl in Hv. congruence. }
  split.
  - intros out (v & Hv & Hkey)%Hok. exists v. split; [|done].
    by apply equal_Ok_inv.
  - intros (i & j & x & y & Hi & Hj & Hxy).
    destruct (mergeKeys_loop _ _ _ _ _) as [out|e]; [|by eexists].
    destruct (Hok out eq_refl) as (v & Hv & _).
    by rewrite (equal_differ _ _ _ _ _ Hi Hj Hxy) in Hv.
Qed.

(** Two head tables whose magic numbers differ do not merge; two that
    agree on every field do, and keep the units per em. *)
Example head_magicNumber_mismatch :
  merge_scalar head (Example.env 0)
    [ {[ "tableTag" := VStr "head"; "magicNumber" := VInt 1594834165;
         "unitsPerEm" := VInt 1000 ]};
      {[ "tableTag" := VStr "head"; "magicNumber" := VInt 0;
         "unitsPerEm" := VInt 1000 ]} ]
  = Raise AssertionError.
Proof. reflexivity. Qed.

Example head_unitsPerEm_agree :
  merge_scalar head (Example.env 0)
    [ {[ "tableTag" := VStr "head"; "magicNumber" := VInt 1594834165;
         "unitsPerEm" := VInt 1000; "yMax" := VInt 800 ]};
      {[ "tableTag" := VStr "head"; "magicNumber" := VInt 1594834165;
         "unitsPerEm" := VInt 1000; "yMax" := VInt 900 ]} ]
  = Ok ({[ "tableTag" := VStr "head"; "magicNumber" := VInt 1594834165;
           "unitsPerEm" := VInt 1000; "yMax" := VInt 900 ]}, true).
Proof. vm_compute. reflexivity. Qed.

End equal_fields.

(** * Further properties of the merger *)

(** ** Attaching the mergers to the table classes *)

Section classes.

Import Classes.

Lemma check_Done classes name clazzes last0 r :
  check classes name clazzes last0 = Done r ↔
    Forall (λ c, c ≠ DefaultTable ∧ hasattr classes c name = false) clazzes
    ∧ r = from_option Some last0 (last clazzes).
Proof.
  revert last0. induction clazzes as [|c clazzes IH]; intros last0; simpl.
  - split; [by intros [= <-]|by intros [_ ->]].
  - case_decide as Hc.
    { split; [done|]. by intros [[[] _]%Forall_cons _]. }
    destruct (hasattr classes c name) eqn:Hhas.
    { split; [done|]. intros [[[_ ?] _]%Forall_cons _]. congruence. }
    rewrite IH, Forall_cons. rewrite last_cons.
    destruct (last clazzes); simpl; naive_solver.
Qed.












(** X2.  The decorator succeeds exactly when it is given at least one
    class, none of them is [DefaultTable] and none has an attribute of
    the method's name yet; with no class at all it ends in the unbound
    loop variable. *)
Theorem add_method_succeeds clazzes name m classes :
  (∃ classes', _add_method clazzes name m classes = Done classes') ↔
    clazzes ≠ []
    ∧ Forall (λ c, c ≠ DefaultTable ∧ hasattr classes c name = false) clazzes.
Proof.
  unfold _add_method. split.
  - intros [classes' Hdone].
    destruct (check classes name clazzes None) as [[c|]| | |] eqn:Hcheck; try done.
    apply check_Done in Hcheck as [Hall Hlast]. split; [|done].
    intros ->. done.
  - intros [Hne Hall].
    assert (check classes name clazzes None
            = Done (from_option Some None (last clazzes))) as ->.
    { by apply check_Done. }
    destruct (last clazzes) as [c|] eqn:Hlast; simpl; [by eexists|].
    by apply last_None in Hlast.
Qed.

End classes.

Section module_load.

Import Classes.

Lemma elem_of_concat_1 {A} (x : A) (ls : list (list A)) :
  x ∈ concat ls → ∃ l, l ∈ ls ∧ x ∈ l.
Proof.
  induction ls as [|l ls IH]; simpl; [by intros ?%elem_of_nil|].
  intros [Hx|Hx]%elem_of_app.
  - exists l. split; [by left|done].
  - destruct (IH Hx) as (l' & ? & ?). exists l'. split; [by right|done].
Qed.











End module_load.

Section module_load_examples.

Import Classes.



End module_load_examples.

(** ** The orchestrator *)

Section orchestrator.

Import Classes Orchestrator.

Context {T : Type}.
Variable classes : class_table.
Variable has_module : string → bool.
Variable new : string → T.
Variable run : method → T → list T → result (T * bool).
Variable drop_tables : list string.
Variable fonts : list (font T).

Lemma merged_as_inj tag table1 table2 :
  merged_as classes has_module new run drop_tables fonts tag table1 → merged_as classes has_module new run drop_tables fonts tag table2 → table1 = table2.
Proof.
  intros (_ & m1 & ts1 & Hm1 & Hts1 & Hr1) (_ & m2 & ts2 & Hm2 & Hts2 & Hr2).
  congruence.
Qed.

(** One round of the loop. *)
Lemma merge_tags_cons tag tags mega log r :
  merge_tags classes has_module new run drop_tables fonts (tag :: tags) mega log
  = Ok r →
  ∃ mega1 log1,
    merge_tags classes has_module new run drop_tables fonts tags mega1 log1 = Ok r
    ∧ length log1 = S (length log)
    ∧ ((mega1 = mega ∧ ∀ table, ¬ merged_as classes has_module new run drop_tables fonts tag table)
       ∨ (∃ table, mega1 = <[tag := table]> mega ∧ merged_as classes has_module new run drop_tables fonts tag table)).
Proof.
  simpl. case_bool_decide as Hdrop.
  { intros Hr. eexists _, _. split; [done|]. split.
    - rewrite length_app. simpl. lia.
    - left. split; [done|]. by intros table [? _]. }
  destruct (getattr classes _ "merge") as [m|] eqn:Hm.
  2:{ intros Hr. eexists _, _. split; [done|]. split.
      - rewrite length_app. simpl. lia.
      - left. split; [done|]. intros table (_ & m & ts & Hm' & _). congruence. }
  destruct (tables_of fonts tag) as [ts|e] eqn:Hts; simpl; [|done].
  destruct (table_merge run m (new tag) ts) as [[table b]|e] eqn:Hrun; simpl; [|done].
  destruct b.
  - intros Hr. eexists _, _. split; [done|]. split.
    + rewrite length_app. simpl. lia.
    + right. exists table. split; [done|]. split; [done|]. by exists m, ts.
  - intros Hr. eexists _, _. split; [done|]. split.
    + rewrite length_app. simpl. lia.
    + left. split; [done|]. intros table' (_ & m' & ts' & Hm' & Hts' & Hrun').
      congruence.
Qed.

Lemma merge_tags_other tags mega log mega' log' tag :
  merge_tags classes has_module new run drop_tables fonts tags mega log
  = Ok (mega', log') →
  tag ∉ tags → mega' !! tag = mega !! tag.
Proof.
  revert mega log. induction tags as [|tag0 tags IH]; intros mega log.
  { by intros [= <- <-]. }
  intros (mega1 & log1 & Hrest & _ & Hstep)%merge_tags_cons
         [Hne Hnin]%not_elem_of_cons.
  rewrite (IH _ _ Hrest Hnin).
  destruct Hstep as [[-> _]|(table & -> & _)]; [done|].
  by rewrite lookup_insert_ne.
Qed.

Lemma merge_tags_merged tags mega log mega' log' tag table :
  merge_tags classes has_module new run drop_tables fonts tags mega log
  = Ok (mega', log') →
  tag ∈ tags → merged_as classes has_module new run drop_tables fonts tag table → mega' !! tag = Some table.
Proof.
  revert mega log. induction tags as [|tag0 tags IH]; intros mega log.
  { by intros _ ?%elem_of_nil. }
  intros (mega1 & log1 & Hrest & _ & Hstep)%merge_tags_cons Hin Hm.
  destruct (decide (tag ∈ tags)) as [Hin'|Hnin]; [by eapply IH|].
  apply elem_of_cons in Hin as [->|?]; [|done].
  rewrite (merge_tags_other _ _ _ _ _ _ Hrest Hnin).
  destruct Hstep as [[_ Hnot]|(table' & -> & Hm')]; [by destruct (Hnot table)|].
  rewrite lookup_insert_eq. f_equal. by eapply merged_as_inj.
Qed.

(** The loop goes through exactly when every tag is dropped, has no
    merger, or has a table in every font and a merger that raises
    nothing. *)
Lemma merge_tags_is_Ok tags mega log :
  (∃ r, merge_tags classes has_module new run drop_tables fonts tags mega log
        = Ok r) ↔
    Forall (λ tag,
              tag ∈ drop_tables
              ∨ getattr classes (getTableClass has_module tag) "merge" = None
              ∨ ∃ m self_tables r,
                  getattr classes (getTableClass has_module tag) "merge" = Some m
                  ∧ tables_of fonts tag = Ok self_tables
                  ∧ table_merge run m (new tag) self_tables = Ok r) tags.
Proof.
  revert mega log. induction tags as [|tag tags IH]; intros mega log; simpl.
  { split; [done|]. intros _. by eexists. }
  rewrite Forall_cons. case_bool_decide as Hdrop.
  { rewrite IH. split; [intros ?; split; [by left|done]|by intros [_ ?]]. }
  destruct (getattr classes _ "merge") as [m|] eqn:Hm.
  2:{ rewrite IH. split; [intros ?; split; [by right; left|done]|by intros [_ ?]]. }
  destruct (tables_of fonts tag) as [ts|e] eqn:Hts; simpl.
  2:{ split; [by intros [? ?]|].
      intros [[?|[?|(m' & ts' & r' & _ & ? & _)]] _]; done. }
  destruct (table_merge run m (new tag) ts) as [[table b]|e] eqn:Hrun; simpl.
  2:{ split; [by intros [? ?]|].
      intros [[?|[?|(m' & ts' & r' & Hm' & Hts' & Hr')]] _]; [done|done|].
      congruence. }
  assert (tag ∈ drop_tables
          ∨ Some m = None
          ∨ ∃ m' self_tables r,
              Some m = Some m' ∧ Ok ts = Ok self_tables
              ∧ table_merge run m' (new tag) self_tables = Ok r) as Hok.
  { right. right. by exists m, ts, (table, b). }
  destruct b; rewrite IH; (split; [by intros ?|by intros [_ ?]]).
Qed.

(** Every tag the loop merges has a table in every font. *)
Lemma merge_tags_tables tags mega log r tag :
  merge_tags classes has_module new run drop_tables fonts tags mega log = Ok r →
  tag ∈ tags → tag ∉ drop_tables →
  is_Some (getattr classes (getTableClass has_module tag) "merge") →
  ∃ self_tables, tables_of fonts tag = Ok self_tables.
Proof.
  intros Hr Hin Hdrop [m Hm].
  assert (∃ r, merge_tags classes has_module new run drop_tables fonts tags
                 mega log = Ok r) as Hok by by exists r.
  apply merge_tags_is_Ok in Hok. rewrite Forall_forall in Hok.
  destruct (Hok tag Hin) as [?|[?|(m' & ts & r' & _ & Hts & _)]];
    [done|congruence|by exists ts].
Qed.

Lemma merge_tags_log tags mega log mega' log' :
  merge_tags classes has_module new run drop_tables fonts tags mega log
  = Ok (mega', log') →
  length log' = length log + length tags.
Proof.
  revert mega log. induction tags as [|tag0 tags IH]; intros mega log.
  { intros [= <- <-]. simpl. lia. }
  intros (mega1 & log1 & Hrest & Hlen & _)%merge_tags_cons.
  rewrite (IH _ _ Hrest). simpl. lia.
Qed.

Lemma merge_tags_lookup_inv tags mega log mega' log' tag table :
  merge_tags classes has_module new run drop_tables fonts tags mega log
  = Ok (mega', log') →
  mega' !! tag = Some table →
  mega !! tag = Some table
  ∨ (tag ∈ tags ∧ merged_as classes has_module new run drop_tables fonts tag table).
Proof.
  revert mega log. induction tags as [|tag0 tags IH]; intros mega log.
  { intros [= <- <-] ?. by left. }
  intros (mega1 & log1 & Hrest & _ & Hstep)%merge_tags_cons Htag.
  destruct (IH _ _ Hrest Htag) as [Hmega1|[Hin Hm]].
  2:{ right. split; [by right|done]. }
  destruct Hstep as [[-> _]|(table0 & -> & Hm0)]; [by left|].
  destruct (decide (tag = tag0)) as [->|Hne].
  - rewrite lookup_insert_eq in Hmega1. injection Hmega1 as ->.
    right. split; [by left|done].
  - rewrite lookup_insert_ne in Hmega1 by done. by left.
Qed.

(** The table of a tag in the merged font. *)
Lemma merge_tags_lookup tags log mega' log' tag table :
  merge_tags classes has_module new run drop_tables fonts tags ∅ log
  = Ok (mega', log') →
  mega' !! tag = Some table ↔
    tag ∈ tags ∧ merged_as classes has_module new run drop_tables fonts tag table.
Proof.
  intros Hr. split.
  - intros Htag.
    by destruct (merge_tags_lookup_inv _ _ _ _ _ _ _ Hr Htag) as [?|?].
  - intros [Hin Hm]. by eapply merge_tags_merged.
Qed.

End orchestrator.

Section merged_font.

Import Classes Orchestrator.

Context {T : Type}.
Variable classes : class_table.
Variable has_module : string → bool.
Variable new : string → T.
Variable run : method → T → list T → result (T * bool).

Lemma tables_of_ext (fonts1 fonts2 : list (font T)) tag :
  tables <$> fonts1 = tables <$> fonts2 →
  tables_of fonts1 tag = tables_of fonts2 tag.
Proof.
  revert fonts2. induction fonts1 as [|f1 fonts1 IH]; intros [|f2 fonts2];
    simpl; try done.
  intros [= Hf Hrest]. rewrite Hf. by rewrite (IH fonts2).
Qed.

Lemma tables_of_Ok (fonts : list (font T)) tag :
  (∃ self_tables, tables_of fonts tag = Ok self_tables) ↔
    Forall (λ f, is_Some (tables f !! tag)) fonts.
Proof.
  induction fonts as [|f fonts IH]; simpl.
  { split; [done|]. by eexists. }
  rewrite Forall_cons, <-IH. destruct (tables f !! tag) as [t|].
  - destruct (tables_of fonts tag) as [ts|e]; simpl.
    + split; [intros _; split; by eexists|by eexists].
    + split; [by intros [? ?]|by intros [_ [? ?]]].
  - split; [by intros [? ?]|by intros [[? ?] _]].
Qed.

Lemma merge_tags_ext drop_tables (fonts1 fonts2 : list (font T)) tags mega log :
  (∀ tag, tables_of fonts1 tag = tables_of fonts2 tag) →
  merge_tags classes has_module new run drop_tables fonts1 tags mega log
  = merge_tags classes has_module new run drop_tables fonts2 tags mega log.
Proof.
  intros Hext. revert mega log.
  induction tags as [|tag tags IH]; intros mega log; simpl; [done|].
  rewrite Hext. case_bool_decide; [done|].
  destruct (getattr classes _ "merge"); [|done].
  destruct (tables_of fonts2 tag); simpl; [|done].
  destruct (table_merge run _ _ _) as [[table []]|]; simpl; done.
Qed.

Lemma allTags_keys (fonts : list (font T)) :
  allTags fonts = foldl (λ acc ks, acc ∪ list_to_set ks) ∅ (keys <$> fonts).
Proof. unfold allTags. by rewrite foldl_fmap. Qed.

Lemma elem_of_allTags (fonts : list (font T)) tag :
  tag ∈ allTags fonts ↔ ∃ f, f ∈ fonts ∧ tag ∈ keys f.
Proof.
  unfold allTags.
  assert (∀ acc : gset string,
            tag ∈ foldl (λ acc f, acc ∪ list_to_set (keys f)) acc fonts ↔
              tag ∈ acc ∨ ∃ f, f ∈ fonts ∧ tag ∈ keys f) as Hgen.
  { induction fonts as [|f fonts IH]; intros acc; simpl.
    - split; [by left|]. intros [?|(f & ?%elem_of_nil & _)]; done.
    - rewrite IH, elem_of_union, elem_of_list_to_set. split.
      + intros [[?|?]|(f' & ? & ?)]; [by left|right|right].
        * exists f. split; [by left|done].
        * exists f'. split; [by right|done].
      + intros [?|(f' & [->|?]%elem_of_cons & ?)]; [by left; left|by left; right|].
        right. by exists f'. }
  rewrite Hgen. split; [|by right]. by intros [?%elem_of_empty|?].
Qed.

(** The fonts loaded again and given the renamed glyph orders have the
    keys and the tables of the fonts. *)
Lemma reloaded_fonts (fonts : list (font T)) (glyphOrders : list (list string)) :
  length glyphOrders = length fonts →
  tables <$> zip_with (λ f glyphOrder,
                         {| glyphOrder := glyphOrder; keys := keys f;
                            tables := tables f |}) fonts glyphOrders
  = tables <$> fonts
  ∧ keys <$> zip_with (λ f glyphOrder,
                         {| glyphOrder := glyphOrder; keys := keys f;
                            tables := tables f |}) fonts glyphOrders
    = keys <$> fonts.
Proof.
  revert glyphOrders. induction fonts as [|f fonts IH]; intros [|go gos];
    csimpl; try done.
  intros [= Hlen]. destruct (IH gos Hlen) as [H1 H2].
  split; f_equal; assumption.
Qed.

(** [Merger.merge] in terms of the fonts it is given. *)
Lemma merge_in_eq tags drop_tables (fonts : list (font T)) :
  merge_in classes has_module new run tags drop_tables fonts
  = if bool_decide ("GlyphOrder" ∈ allTags fonts) then
      '(mega, log) ← merge_tags classes has_module new run drop_tables fonts
                        tags ∅ [];
      Ok {| mega_glyphOrder :=
              concat (imap (λ n, fmap (rename n)) (glyphOrder <$> fonts));
            mega_tables := mega;
            log_lines := log |}
    else Raise KeyError.
Proof.
  unfold merge_in. rewrite mergeGlyphOrders_eq.
  destruct (reloaded_fonts fonts
              (imap (λ n, fmap (rename n)) (glyphOrder <$> fonts)))
    as [Htables Hkeys].
  { by rewrite length_imap, length_fmap. }
  rewrite (allTags_keys (zip_with _ _ _)), Hkeys, <-allTags_keys.
  case_bool_decide; [|done].
  by rewrite (merge_tags_ext _ _ fonts) by (intros; by apply tables_of_ext).
Qed.

Lemma merge_in_Ok tags drop_tables (fonts : list (font T)) r :
  merge_in classes has_module new run tags drop_tables fonts = Ok r →
  "GlyphOrder" ∈ allTags fonts
  ∧ merge_tags classes has_module new run drop_tables fonts tags ∅ []
    = Ok (mega_tables r, log_lines r)
  ∧ mega_glyphOrder r
    = concat (imap (λ n, fmap (rename n)) (glyphOrder <$> fonts)).
Proof.
  rewrite merge_in_eq. case_bool_decide; [|done].
  destruct (merge_tags _ _ _ _ _ _ _ _ _) as [[mega log]|e]; simpl; [|done].
  by intros [= <-].
Qed.

(** X4.  In the font a merge returns, a tag has a table exactly when it
    was among the tags walked, is not in [drop_tables], its class has a
    [merge], every font has a table for it, and the merger returned
    true; the table is the one the merger worked on. *)
Theorem merged_font_tables tags drop_tables (fonts : list (font T)) r :
  merge_in classes has_module new run tags drop_tables fonts = Ok r →
  ∀ tag table,
    mega_tables r !! tag = Some table ↔
      tag ∈ tags
      ∧ (tag ∉ drop_tables)
      ∧ (∃ m self_tables,
           getattr classes (getTableClass has_module tag) "merge" = Some m
           ∧ tables_of fonts tag = Ok self_tables
           ∧ table_merge run m (new tag) self_tables = Ok (table, true)).
Proof.
  intros (_ & Hloop & _)%merge_in_Ok tag table.
  by rewrite (merge_tags_lookup _ _ _ _ _ _ _ _ _ _ _ _ Hloop).
Qed.

(** X5.  A merge that succeeds has found, for every tag it walked that
    is not dropped and whose class has a [merge], a table in every
    font: a font that lacks such a table makes the merge fail. *)
Theorem merged_tags_in_every_font tags drop_tables (fonts : list (font T)) r tag :
  merge_in classes has_module new run tags drop_tables fonts = Ok r →
  tag ∈ tags → tag ∉ drop_tables →
  is_Some (getattr classes (getTableClass has_module tag) "merge") →
  Forall (λ f, is_Some (tables f !! tag)) fonts.
Proof.
  intros (_ & Hloop & _)%merge_in_Ok Hin Hdrop Hm.
  apply tables_of_Ok. by eapply merge_tags_tables.
Qed.

(** X6.  When no font lists the key ['GlyphOrder'], as when there is no
    font at all, the merge ends in the [KeyError] of
    [allTags.remove('GlyphOrder')]. *)
Theorem merge_without_GlyphOrder tags drop_tables (fonts : list (font T)) :
  (∀ f, f ∈ fonts → "GlyphOrder" ∉ keys f) →
  merge_in classes has_module new run tags drop_tables fonts = Raise KeyError.
Proof.
  intros Hnone. rewrite merge_in_eq.
  rewrite bool_decide_eq_false_2; [done|].
  intros (f & Hf & Hkey)%elem_of_allTags. by apply (Hnone f).
Qed.


End merged_font.

Section merged_font_examples.

Import Classes Orchestrator.

Lemma example_merge :
  merge_in Example.classes (λ _, true) (λ _, 0%Z) Example.run
    Example.tags ["gasp"] Example.fonts
  = Ok Example.merged_font.
Proof. vm_compute. reflexivity. Qed.

Lemma merged_font_tables_witness :
  merge_in Example.classes (λ _, true) (λ _, 0%Z) Example.run
    Example.tags ["gasp"] Example.fonts
  = Ok Example.merged_font
  ∧ (mega_tables Example.merged_font !! "hmtx" = Some 22%Z ↔
       "hmtx" ∈ Example.tags
       ∧ ("hmtx" ∉ ["gasp"])
       ∧ (∃ m self_tables,
            getattr Example.classes (getTableClass (λ _, true) "hmtx") "merge"
            = Some m
            ∧ tables_of Example.fonts "hmtx" = Ok self_tables
            ∧ table_merge Example.run m 0%Z self_tables = Ok (22%Z, true))).
Proof.
  split; [exact example_merge|].
  exact (merged_font_tables _ _ _ _ _ _ _ _ example_merge "hmtx" 22%Z).
Defined.

Lemma merged_tags_in_every_font_witness :
  merge_in Example.classes (λ _, true) (λ _, 0%Z) Example.run
    Example.tags ["gasp"] Example.fonts
  = Ok Example.merged_font
  ∧ "hmtx" ∈ Example.tags
  ∧ ("hmtx" ∉ ["gasp"])
  ∧ is_Some (getattr Example.classes (getTableClass (λ _, true) "hmtx") "merge")
  ∧ Forall (λ f, is_Some (tables f !! "hmtx")) Example.fonts.
Proof.
  assert ("hmtx" ∈ Example.tags) as Hin.
  { apply (bool_decide_unpack _). vm_compute. exact I. }
  assert ("hmtx" ∉ ["gasp"]) as Hdrop.
  { apply (bool_decide_unpack _). vm_compute. exact I. }
  assert (is_Some (getattr Example.classes
                     (getTableClass (λ _, true) "hmtx") "merge")) as Hm.
  { exists merge_metrics. vm_compute. reflexivity. }
  split_and!; [exact example_merge|exact Hin|exact Hdrop|exact Hm|].
  exact (merged_tags_in_every_font _ _ _ _ _ _ _ _ _ example_merge Hin Hdrop Hm).
Defined.

(** Fonts that do not list the key: here, no font. *)
Lemma merge_without_GlyphOrder_witness :
  (∀ f : font Z, f ∈ [] → "GlyphOrder" ∉ keys f)
  ∧ merge_in Example.classes (λ _, true) (λ _, 0%Z) Example.run
      [] _drop_tables_default [] = Raise KeyError.
Proof.
  assert (∀ f : font Z, f ∈ [] → "GlyphOrder" ∉ keys f) as Hnone.
  { intros f Hf. by apply elem_of_nil in Hf. }
  split; [exact Hnone|].
  exact (merge_without_GlyphOrder _ _ _ _ _ _ _ Hnone).
Defined.


End merged_font_examples.

Section loaded_merger.

Import Classes Orchestrator.

Context {T : Type}.


End loaded_merger.

Section loaded_merger_examples.

Import Classes Orchestrator.


End loaded_merger_examples.

(** ** The command-line flags of the logger *)

Section logger.

Import Logger.

Lemma remove_first_notin x (argv : list string) :
  x ∉ argv → remove_first x argv = argv.
Proof.
  induction argv as [|a argv IH]; simpl; [done|].
  intros [Hne Hnin]%not_elem_of_cons. rewrite decide_False by done.
  by rewrite IH.
Qed.



Lemma elem_of_remove_first_ne x y (argv : list string) :
  x ≠ y → x ∈ remove_first y argv ↔ x ∈ argv.
Proof.
  intros Hne. induction argv as [|a argv IH]; simpl; [done|].
  case_decide as Ha.
  - subst a. rewrite elem_of_cons. naive_solver.
  - rewrite !elem_of_cons, IH. done.
Qed.

Lemma parse_flag_eq self argv v :
  parse_flag (self, argv) v
  = (if bool_decide ("--" +:+ v ∈ argv) then set_true v self else self,
     remove_first ("--" +:+ v) argv).
Proof.
  unfold parse_flag. case_bool_decide; [done|].
  by rewrite remove_first_notin.
Qed.

(** What [parse_opts] returns, flag by flag. *)
Lemma parse_opts_eq self argv :
  parse_opts self argv
  = ({| verbose := verbose self || bool_decide ("--verbose" ∈ argv);
        xml := xml self || bool_decide ("--xml" ∈ argv);
        timing := timing self || bool_decide ("--timing" ∈ argv) |},
     remove_first "--timing"
       (remove_first "--xml" (remove_first "--verbose" argv))).
Proof.
  unfold parse_opts. cbn [foldl]. rewrite !parse_flag_eq.
  change ("--" +:+ "verbose") with "--verbose".
  change ("--" +:+ "xml") with "--xml".
  change ("--" +:+ "timing") with "--timing".
  assert (bool_decide ("--xml" ∈ remove_first "--verbose" argv)
          = bool_decide ("--xml" ∈ argv)) as ->.
  { apply bool_decide_ext, elem_of_remove_first_ne. done. }
  assert (bool_decide ("--timing"
                       ∈ remove_first "--xml" (remove_first "--verbose" argv))
          = bool_decide ("--timing" ∈ argv)) as ->.
  { apply bool_decide_ext.
    rewrite elem_of_remove_first_ne by done.
    by apply elem_of_remove_first_ne. }
  f_equal.
  destruct self as [v x t].
  destruct (bool_decide ("--verbose" ∈ argv)),
           (bool_decide ("--xml" ∈ argv)),
           (bool_decide ("--timing" ∈ argv)), v, x, t; reflexivity.
Qed.

(** X9.  [Logger.parse_opts] only switches flags on: afterwards each of
    verbose, xml and timing is on exactly when it was on before or its
    flag occurs in the arguments. *)
Theorem logger_flags self argv :
  verbose (parse_opts self argv).1
  = verbose self || bool_decide ("--verbose" ∈ argv)
  ∧ xml (parse_opts self argv).1 = xml self || bool_decide ("--xml" ∈ argv)
  ∧ timing (parse_opts self argv).1
    = timing self || bool_decide ("--timing" ∈ argv).
Proof. by rewrite parse_opts_eq. Qed.


End logger.

(** ** The numeric combinators on integer fields *)

Section numeric.

Lemma max_from_ints (x : Z) (l : list Z) :
  max_from (VInt x) (VInt <$> l) = Ok (VInt (foldl Z.max x l)).
Proof.
  revert x. induction l as [|y l IH]; intros x; csimpl; [done|].
  rewrite <-IH. unfold Z.max, Z.ltb. by destruct (x ?= y)%Z.
Qed.

Lemma min_from_ints (x : Z) (l : list Z) :
  min_from (VInt x) (VInt <$> l) = Ok (VInt (foldl Z.min x l)).
Proof.
  revert x. induction l as [|y l IH]; intros x; csimpl; [done|].
  rewrite <-IH. unfold Z.min, Z.ltb. rewrite (Z.compare_antisym x y).
  by destruct (x ?= y)%Z.
Qed.

Lemma foldl_min_spec (l : list Z) (x : Z) :
  (foldl Z.min x l = x ∨ foldl Z.min x l ∈ l)
  ∧ (foldl Z.min x l ≤ x)%Z
  ∧ ∀ y, y ∈ l → (foldl Z.min x l ≤ y)%Z.
Proof.
  revert x. induction l as [|y l IH]; intros x; simpl.
  - split_and!; [by left|lia|]. by intros y ?%elem_of_nil.
  - destruct (IH (Z.min x y)) as (Hin & Hle & Hall). split_and!.
    + destruct Hin as [Heq|Hin]; [|right; by right].
      rewrite Heq. destruct (Z.min_spec x y) as [[_ ->]|[_ ->]];
        [by left|right; by left].
    + lia.
    + intros z [->|Hz]%elem_of_cons; [lia|by apply Hall].
Qed.

Lemma sum_from_ints (acc : Z) (l : list Z) :
  sum_from acc (VInt <$> l) = Ok (VInt (acc + foldr Z.add 0%Z l)).
Proof.
  revert acc. induction l as [|y l IH]; intros acc; csimpl.
  - by rewrite Z.add_0_r.
  - rewrite IH. by rewrite Z.add_assoc.
Qed.

Lemma or_from_ints (x : Z) (l : list Z) :
  or_from (VInt x) (VInt <$> l) = Ok (VInt (foldl Z.lor x l)).
Proof.
  revert x. induction l as [|y l IH]; intros x; csimpl; [done|]. apply IH.
Qed.

Lemma foldl_lor_testbit (l : list Z) (x : Z) (i : Z) :
  Z.testbit (foldl Z.lor x l) i = true ↔
    Z.testbit x i = true ∨ ∃ y, y ∈ l ∧ Z.testbit y i = true.
Proof.
  revert x. induction l as [|y l IH]; intros x; simpl.
  - split; [by left|]. intros [?|(y & ?%elem_of_nil & _)]; done.
  - rewrite IH, Z.lor_spec, orb_true_iff. split.
    + intros [[?|?]|(z & ? & ?)]; [by left|right|right].
      * exists y. split; [by left|done].
      * exists z. split; [by right|done].
    + intros [?|(z & [->|?]%elem_of_cons & ?)]; [by left; left|by left; right|].
      right. by exists z.
Qed.

(** On integer values the builtin [max] and [min] return the largest and
    the smallest of the values, one of the values itself; on no values
    at all both end in a [ValueError]. *)
Lemma max_min_of_ints (l : list Z) :
  (l = [] → py_max (VInt <$> l) = Raise ValueError
            ∧ py_min (VInt <$> l) = Raise ValueError)
  ∧ (l ≠ [] →
     ∃ hi lo, py_max (VInt <$> l) = Ok (VInt hi)
              ∧ py_min (VInt <$> l) = Ok (VInt lo)
              ∧ hi ∈ l ∧ lo ∈ l
              ∧ ∀ y, y ∈ l → (lo ≤ y ≤ hi)%Z).
Proof.
  split; [by intros ->|]. intros Hne. destruct l as [|x l]; [done|].
  csimpl. rewrite max_from_ints, min_from_ints.
  destruct (foldl_max_spec l x) as (Hin & Hle & Hall).
  destruct (foldl_min_spec l x) as (Hin' & Hle' & Hall').
  eexists _, _. split_and!; [done|done| | |].
  - destruct Hin as [->|?]; [by left|by right].
  - destruct Hin' as [->|?]; [by left|by right].
  - intros y [->|Hy]%elem_of_cons; [done|]. split; [by apply Hall'|by apply Hall].
Qed.

(** On integer values the builtin [sum] returns their sum, zero when
    there are none. *)
Lemma sum_of_ints (l : list Z) :
  py_sum (VInt <$> l) = Ok (VInt (foldr Z.add 0%Z l)).
Proof. unfold py_sum. by rewrite sum_from_ints. Qed.

(** X11.  On a non-empty list of integer values [bitwise_or] returns
    the integer whose bits are those set in at least one of the values;
    on an empty list the [reduce] without initial value is a
    [TypeError]. *)
Theorem bitwise_or_bits (l : list Z) :
  (l = [] → bitwise_or (VInt <$> l) = Raise TypeError)
  ∧ (l ≠ [] →
     ∃ m, bitwise_or (VInt <$> l) = Ok (VInt m)
          ∧ ∀ i, Z.testbit m i = true ↔ ∃ y, y ∈ l ∧ Z.testbit y i = true).
Proof.
  split; [by intros ->|]. intros Hne. destruct l as [|x l]; [done|].
  csimpl. rewrite or_from_ints. eexists. split; [done|].
  intros i. rewrite foldl_lor_testbit. split.
  - intros [?|(y & ? & ?)].
    + exists x. split; [by left|done].
    + exists y. split; [by right|done].
  - intros (y & [->|?]%elem_of_cons & ?); [by left|]. right. by exists y.
Qed.

Lemma bitwise_or_bits_witness :
  [5%Z; 3%Z] ≠ []
  ∧ ∃ m, bitwise_or (VInt <$> [5%Z; 3%Z]) = Ok (VInt m)
         ∧ ∀ i, Z.testbit m i = true ↔ ∃ y, y ∈ [5%Z; 3%Z] ∧ Z.testbit y i = true.
Proof.
  assert ([5%Z; 3%Z] ≠ []) as Hne by discriminate.
  split; [exact Hne|]. exact (proj2 (bitwise_or_bits _) Hne).
Defined.

End numeric.

(** ** The generic field merger as a whole *)

Section mergeKeys_spec.

Variable env : runtime.
Variable tables : list (gmap string value).
Variable logic : gmap string combinator.

Lemma elem_of_allKeys key :
  key ∈ allKeys tables ↔ ∃ t, t ∈ tables ∧ is_Some (t !! key).
Proof.
  unfold allKeys. rewrite elem_of_union_list. split.
  - intros (X & (t & -> & Ht)%list_elem_of_fmap & Hkey).
    exists t. split; [done|]. by apply elem_of_dom.
  - intros (t & Ht & Hkey). exists (dom t). split.
    + by apply list_elem_of_fmap_2.
    + by apply elem_of_dom.
Qed.

(** An attribute of the instance is what [getattr] finds. *)
Lemma table_getattr_own (t : gmap string value) key v :
  t !! key = Some v → table_getattr env t key = Some v.
Proof. intros Ht. unfold table_getattr. by rewrite Ht. Qed.

(** With no attribute of that name in the class, [getattr] finds the
    attribute of the instance only. *)
Lemma table_getattr_instance (t : gmap string value) key v :
  class_attributes env !! key = None →
  table_getattr env t key = Some v → t !! key = Some v.
Proof.
  intros Hclass. unfold table_getattr.
  destruct (t !! key); [done|]. by rewrite Hclass.
Qed.

Lemma getattrs_Ok (ts : list (gmap string value)) key lst :
  getattrs env ts key = Ok lst ↔
    Forall2 (λ t v, table_getattr env t key = Some v) ts lst.
Proof.
  revert lst. induction ts as [|t ts IH]; intros lst; simpl.
  - split; [intros [= <-]; constructor|by intros ->%Forall2_nil_inv_l].
  - destruct (table_getattr env t key) as [v|] eqn:Ht.
    + destruct (getattrs env ts key) as [vs|e]; simpl.
      * split.
        -- intros [= <-]. constructor; [done|]. by apply IH.
        -- intros (v' & vs' & Hv & Hvs & ->)%Forall2_cons_inv_l.
           apply IH in Hvs. congruence.
      * split; [done|].
        intros (v' & vs' & _ & Hvs & _)%Forall2_cons_inv_l.
        by apply IH in Hvs.
    + split; [done|]. intros (v' & vs' & Hv & _)%Forall2_cons_inv_l.
      congruence.
Qed.



End mergeKeys_spec.

Section mergeKeys_theorems.

Variable env : runtime.
Variable tables : list (gmap string value).
Variable logic : gmap string combinator.
Variable return_table : gmap string value.


(** X13.  What a successful [_mergeKeys] leaves in the table: a field
    that some source table has, under a combinator other than [ignore],
    holds the combinator's result on the list of what [getattr] finds
    for the field in each source, its own attribute or else that of its
    class, in input order; every other field is as it was. *)
Theorem mergeKeys_result out :
  _mergeKeys env tables return_table logic = Ok out →
  ∀ key,
    (∀ c, key ∈ allKeys tables →
          lookup_logic (<["tableTag":=c_equal]> logic) key = Ok c →
          c ≠ c_ignore →
          ∃ lst v, Forall2 (λ t x, table_getattr env t key = Some x) tables lst
                   ∧ call (clock env key) c lst = Ok v
                   ∧ out !! key = Some v)
    ∧ (key ∉ allKeys tables
       ∨ lookup_logic (<["tableTag":=c_equal]> logic) key = Ok c_ignore →
       out !! key = return_table !! key).
Proof.
  unfold _mergeKeys, _mergeKeys_in. intros Hout key. split.
  - intros c Hin Hc Hni.
    destruct (mergeKeys_loop_merged _ _ _ _ _ _ key c Hout)
      as (lst & v & Hlst & Hv & Hkey); [by apply elem_of_elements|done|done|].
    exists lst, v. split; [by apply getattrs_Ok|done].
  - intros [Hnin|Hign].
    + eapply mergeKeys_loop_other; [done|]. by rewrite elem_of_elements.
    + by eapply mergeKeys_loop_ignored.
Qed.


(** X15.  The table tag is merged under [equal] whatever the policy
    says for it: after a successful [_mergeKeys] on tables that carry a
    tag, all source tables carry the same tag and the merged table
    carries it too.  (With no [tableTag] in the class, the tag a source
    carries is its own attribute.) *)
Theorem mergeKeys_tableTag out :
  _mergeKeys env tables return_table logic = Ok out →
  "tableTag" ∈ allKeys tables →
  ∃ v, Forall (λ t, table_getattr env t "tableTag" = Some v) tables
       ∧ (class_attributes env !! "tableTag" = None →
          Forall (λ t, t !! "tableTag" = Some v) tables)
       ∧ out !! "tableTag" = Some v.
Proof.
  unfold _mergeKeys, _mergeKeys_in. intros Hout Hin.
  assert (lookup_logic (<["tableTag":=c_equal]> logic) "tableTag" = Ok c_equal)
    as Hc.
  { unfold lookup_logic. by rewrite lookup_insert_eq. }
  destruct (mergeKeys_loop_merged _ _ _ _ _ _ "tableTag" c_equal Hout)
    as (lst & v & Hlst & Hv & Hkey); [by apply elem_of_elements|done|done|].
  simpl in Hv. apply equal_Ok_inv in Hv. apply getattrs_Ok in Hlst.
  assert (Forall (λ t, table_getattr env t "tableTag" = Some v) tables) as Hall.
  { clear -Hlst Hv. induction Hlst as [|t x ts lst Ht Hts IH]; [done|].
    apply Forall_cons in Hv as [-> Hv]. constructor; [done|by apply IH]. }
  exists v. split_and!; [done| |done].
  intros Hclass. eapply Forall_impl; [exact Hall|].
  intros t. by apply table_getattr_instance.
Qed.

End mergeKeys_theorems.

Section mergeKeys_examples.

Lemma example_hhea_merge :
  _mergeKeys (Example.env 0) Example.hhea_tables (new_table "hhea") hhea_logic
  = Ok Example.hhea_merged.
Proof. vm_compute. reflexivity. Qed.


Lemma mergeKeys_result_witness :
  _mergeKeys (Example.env 0) Example.hhea_tables (new_table "hhea") hhea_logic
  = Ok Example.hhea_merged
  ∧ "ascent" ∈ allKeys Example.hhea_tables
  ∧ lookup_logic (<["tableTag":=c_equal]> hhea_logic) "ascent" = Ok c_max
  ∧ ∃ lst v, Forall2 (λ (t : gmap string value) x,
                        table_getattr (Example.env 0) t "ascent" = Some x)
               Example.hhea_tables lst
             ∧ call 0 c_max lst = Ok v
             ∧ Example.hhea_merged !! "ascent" = Some v.
Proof.
  assert ("ascent" ∈ allKeys Example.hhea_tables) as Hin.
  { apply (bool_decide_unpack _). vm_compute. exact I. }
  assert (lookup_logic (<["tableTag":=c_equal]> hhea_logic) "ascent" = Ok c_max)
    as Hc by reflexivity.
  split_and!; [exact example_hhea_merge|exact Hin|exact Hc|].
  refine (proj1 (mergeKeys_result (Example.env 0) Example.hhea_tables hhea_logic
                   (new_table "hhea") Example.hhea_merged
                   example_hhea_merge "ascent")
            c_max Hin Hc _).
  discriminate.
Defined.


Lemma mergeKeys_tableTag_witness :
  _mergeKeys (Example.env 0) Example.hhea_tables (new_table "hhea") hhea_logic
  = Ok Example.hhea_merged
  ∧ "tableTag" ∈ allKeys Example.hhea_tables
  ∧ ∃ v, Forall (λ t : gmap string value, t !! "tableTag" = Some v)
           Example.hhea_tables
         ∧ Example.hhea_merged !! "tableTag" = Some v.
Proof.
  assert ("tableTag" ∈ allKeys Example.hhea_tables) as Hin.
  { apply (bool_decide_unpack _). vm_compute. exact I. }
  split_and!; [exact example_hhea_merge|exact Hin|].
  destruct (mergeKeys_tableTag (Example.env 0) Example.hhea_tables hhea_logic
              (new_table "hhea") Example.hhea_merged example_hhea_merge Hin)
    as (v & _ & Hown & Hout).
  exists v. split; [exact (Hown eq_refl)|exact Hout].
Defined.

End mergeKeys_examples.

(** ** The metadata tables *)

Section scalar_tables.

Variable env : runtime.
Variable tables : list (gmap string value).

(** A field of a merged metadata table, from the values the sources
    have for it. *)
Lemma merge_scalar_field k out b key c lst :
  merge_scalar k env tables = Ok (out, b) →
  tables ≠ [] →
  Forall2 (λ t x, t !! key = Some x) tables lst →
  lookup_logic (logic_in_mergeKeys k) key = Ok c →
  c ≠ c_ignore →
  ∃ v, call (clock env key) c lst = Ok v ∧ out !! key = Some v.
Proof.
  unfold merge_scalar, merge_scalar_in, _mergeKeys_in. intros Hm Hne Hlst Hc Hni.
  destruct (mergeKeys_loop _ _ _ _ _) as [self|e] eqn:Hloop; simpl in Hm; [|done].
  injection Hm as <- <-.
  assert (key ∈ allKeys tables) as Hin.
  { apply elem_of_allKeys. destruct Hlst as [|t x ts l Ht _]; [done|].
    exists t. split; [by left|by rewrite Ht]. }
  destruct (mergeKeys_loop_merged _ _ _ _ _ _ key c Hloop)
    as (lst' & v & Hlst' & Hv & Hkey); [by apply elem_of_elements|done|done|].
  assert (getattrs env tables key = Ok lst) as Hget.
  { apply getattrs_Ok. eapply Forall2_impl; [exact Hlst|].
    intros t x. apply table_getattr_own. }
  exists v. split; [congruence|done].
Qed.

Lemma merge_scalar_present k out b key c :
  merge_scalar k env tables = Ok (out, b) →
  key ∈ allKeys tables →
  lookup_logic (logic_in_mergeKeys k) key = Ok c →
  c ≠ c_ignore →
  ∃ lst v, call (clock env key) c lst = Ok v ∧ out !! key = Some v.
Proof.
  unfold merge_scalar, merge_scalar_in, _mergeKeys_in. intros Hm Hin Hc Hni.
  destruct (mergeKeys_loop _ _ _ _ _) as [self|e] eqn:Hloop; simpl in Hm; [|done].
  injection Hm as <- <-.
  destruct (mergeKeys_loop_merged _ _ _ _ _ _ key c Hloop)
    as (lst' & v & Hlst' & Hv & Hkey); [by apply elem_of_elements|done|done|].
  by exists lst', v.
Qed.

Lemma Forall2_ints key (ns : list Z) :
  Forall2 (λ (t : gmap string value) n, t !! key = Some (VInt n)) tables ns →
  Forall2 (λ (t : gmap string value) x, t !! key = Some x) tables (VInt <$> ns).
Proof. intros H. apply Forall2_fmap_r. eapply Forall2_impl; [exact H|done]. Qed.

(** X16.  The merged maxp table counts the glyphs of all the sources:
    its [numGlyphs] is the sum of the sources' [numGlyphs]. *)
Theorem maxp_numGlyphs_sum out b (ns : list Z) :
  merge_scalar maxp env tables = Ok (out, b) →
  tables ≠ [] →
  Forall2 (λ (t : gmap string value) n, t !! "numGlyphs" = Some (VInt n))
    tables ns →
  out !! "numGlyphs" = Some (VInt (foldr Z.add 0%Z ns)).
Proof.
  intros Hm Hne Hns%Forall2_ints.
  destruct (merge_scalar_field maxp out b "numGlyphs" c_sum _ Hm Hne Hns)
    as (v & Hv & ->); [reflexivity|discriminate|].
  simpl in Hv. rewrite sum_of_ints in Hv. congruence.
Qed.

(** X17.  The merged head table does not take these fields from the
    sources: whatever the sources hold, [fontDirectionHint] is 2, and
    [created] and [modified] each hold what the clock reads when the
    field is merged: two readings, which need not agree. *)
Theorem head_forced_fields out b :
  merge_scalar head env tables = Ok (out, b) →
  ("fontDirectionHint" ∈ allKeys tables →
   out !! "fontDirectionHint" = Some (VInt 2))
  ∧ ("created" ∈ allKeys tables →
     out !! "created" = Some (VInt (clock env "created")))
  ∧ ("modified" ∈ allKeys tables →
     out !! "modified" = Some (VInt (clock env "modified"))).
Proof.
  intros Hm. split_and!; intros Hin.
  - destruct (merge_scalar_present head out b "fontDirectionHint" (c_const 2)
                Hm Hin) as (lst & v & Hv & ->); [reflexivity|discriminate|].
    simpl in Hv. congruence.
  - destruct (merge_scalar_present head out b "created" c_current_time Hm Hin)
      as (lst & v & Hv & ->); [reflexivity|discriminate|].
    simpl in Hv. unfold current_time in Hv. congruence.
  - destruct (merge_scalar_present head out b "modified" c_current_time Hm Hin)
      as (lst & v & Hv & ->); [reflexivity|discriminate|].
    simpl in Hv. unfold current_time in Hv. congruence.
Qed.

(** X18.  The merged hhea table spans the sources vertically: its
    [ascent] is the largest of the sources' ascents and its [descent]
    the smallest of their descents. *)
Theorem hhea_ascent_descent out b (ascents descents : list Z) :
  merge_scalar hhea env tables = Ok (out, b) →
  tables ≠ [] →
  Forall2 (λ (t : gmap string value) n, t !! "ascent" = Some (VInt n))
    tables ascents →
  Forall2 (λ (t : gmap string value) n, t !! "descent" = Some (VInt n))
    tables descents →
  ∃ hi lo,
    out !! "ascent" = Some (VInt hi) ∧ out !! "descent" = Some (VInt lo)
    ∧ hi ∈ ascents ∧ (∀ a, a ∈ ascents → (a ≤ hi)%Z)
    ∧ lo ∈ descents ∧ (∀ d, d ∈ descents → (lo ≤ d)%Z).
Proof.
  intros Hm Hne Ha Hd.
  assert (ascents ≠ []) as Hane.
  { intros ->. apply Forall2_nil_inv_r in Ha. done. }
  assert (descents ≠ []) as Hdne.
  { intros ->. apply Forall2_nil_inv_r in Hd. done. }
  apply Forall2_ints in Ha, Hd.
  destruct (merge_scalar_field hhea out b "ascent" c_max _ Hm Hne Ha)
    as (va & Hva & Hoa); [reflexivity|discriminate|].
  destruct (merge_scalar_field hhea out b "descent" c_min _ Hm Hne Hd)
    as (vd & Hvd & Hod); [reflexivity|discriminate|].
  destruct (proj2 (max_min_of_ints ascents) Hane)
    as (hi & lo0 & Hhi & _ & Hin & _ & Hall).
  destruct (proj2 (max_min_of_ints descents) Hdne)
    as (hi0 & lo & _ & Hlo & _ & Hin' & Hall').
  simpl in Hva, Hvd. exists hi, lo.
  split_and!; [congruence|congruence|done| |done|].
  - intros a Ha'. by destruct (Hall a Ha').
  - intros d Hd'. by destruct (Hall' d Hd').
Qed.

(** X19.  The merged OS/2 table covers what any source covers: a bit of
    [ulUnicodeRange1] is set exactly when it is set in a source. *)
Theorem OS2_unicode_range out b (ranges : list Z) :
  merge_scalar OS2 env tables = Ok (out, b) →
  tables ≠ [] →
  Forall2 (λ (t : gmap string value) n, t !! "ulUnicodeRange1" = Some (VInt n))
    tables ranges →
  ∃ m, out !! "ulUnicodeRange1" = Some (VInt m)
       ∧ ∀ i, Z.testbit m i = true ↔ ∃ r, r ∈ ranges ∧ Z.testbit r i = true.
Proof.
  intros Hm Hne Hr.
  assert (ranges ≠ []) as Hrne.
  { intros ->. apply Forall2_nil_inv_r in Hr. done. }
  apply Forall2_ints in Hr.
  destruct (merge_scalar_field OS2 out b "ulUnicodeRange1" c_bitwise_or _
              Hm Hne Hr) as (v & Hv & Ho); [reflexivity|discriminate|].
  assert (∃ m, bitwise_or (VInt <$> ranges) = Ok (VInt m)
               ∧ ∀ i, Z.testbit m i = true ↔
                      ∃ r, r ∈ ranges ∧ Z.testbit r i = true)
    as (m & Hor & Hbits).
  { destruct ranges as [|x l]; [done|]. csimpl. rewrite or_from_ints.
    eexists. split; [done|]. intros i. rewrite foldl_lor_testbit. split.
    - intros [?|(y & ? & ?)].
      + exists x. split; [by left|done].
      + exists y. split; [by right|done].
    - intros (y & [->|?]%elem_of_cons & ?); [by left|]. right. by exists y. }
  simpl in Hv. exists m. split; [congruence|done].
Qed.

End scalar_tables.

Section scalar_tables_examples.

Lemma maxp_numGlyphs_sum_witness :
  let tables : list (gmap string value) :=
    [ {[ "tableTag" := VStr "maxp"; "numGlyphs" := VInt 2 ]};
      {[ "tableTag" := VStr "maxp"; "numGlyphs" := VInt 3 ]} ] in
  tables ≠ []
  ∧ Forall2 (λ (t : gmap string value) n, t !! "numGlyphs" = Some (VInt n))
      tables [2%Z; 3%Z]
  ∧ ∃ out b, merge_scalar maxp (Example.env 0) tables = Ok (out, b)
             ∧ out !! "numGlyphs" = Some (VInt (foldr Z.add 0%Z [2%Z; 3%Z])).
Proof.
  intros tables.
  assert (tables ≠ []) as Hne by discriminate.
  assert (Forall2 (λ (t : gmap string value) n,
                     t !! "numGlyphs" = Some (VInt n)) tables [2%Z; 3%Z]) as Hns.
  { repeat constructor. }
  split; [exact Hne|]. split; [exact Hns|].
  destruct (merge_scalar maxp (Example.env 0) tables) as [[out b]|e] eqn:Hm;
    [|by vm_compute in Hm].
  exists out, b. split; [reflexivity|].
  exact (maxp_numGlyphs_sum (Example.env 0) tables out b [2%Z; 3%Z] Hm Hne Hns).
Defined.

(** Two head tables, merged while the clock moves on: the merged table
    holds neither source's hint or times, and its two times differ. *)
Lemma head_forced_fields_witness :
  let tables : list (gmap string value) :=
    [ {[ "tableTag" := VStr "head"; "fontDirectionHint" := VInt 1;
         "created" := VInt 100; "modified" := VInt 200 ]};
      {[ "tableTag" := VStr "head"; "fontDirectionHint" := VInt (-1);
         "created" := VInt 300; "modified" := VInt 400 ]} ] in
  "fontDirectionHint" ∈ allKeys tables
  ∧ "created" ∈ allKeys tables
  ∧ "modified" ∈ allKeys tables
  ∧ ∃ out b,
      merge_scalar head (Example.env_ticking 3500000000) tables = Ok (out, b)
      ∧ out !! "fontDirectionHint" = Some (VInt 2)
      ∧ out !! "created" = Some (VInt 3500000000)
      ∧ out !! "modified" = Some (VInt 3500000001).
Proof.
  intros tables.
  assert ("fontDirectionHint" ∈ allKeys tables) as Hin.
  { apply (bool_decide_unpack _). vm_compute. exact I. }
  assert ("created" ∈ allKeys tables) as Hcreated.
  { apply (bool_decide_unpack _). vm_compute. exact I. }
  assert ("modified" ∈ allKeys tables) as Hmodified.
  { apply (bool_decide_unpack _). vm_compute. exact I. }
  split_and!; [exact Hin|exact Hcreated|exact Hmodified|].
  destruct (merge_scalar head (Example.env_ticking 3500000000) tables)
    as [[out b]|e] eqn:Hm; [|by vm_compute in Hm].
  exists out, b. split; [reflexivity|].
  destruct (head_forced_fields (Example.env_ticking 3500000000) tables out b Hm)
    as (Hhint & Hc & Hmod).
  split_and!; [exact (Hhint Hin)|exact (Hc Hcreated)|exact (Hmod Hmodified)].
Defined.

Lemma hhea_ascent_descent_witness :
  let tables := Example.hhea_tables in
  tables ≠ []
  ∧ Forall2 (λ (t : gmap string value) n, t !! "ascent" = Some (VInt n))
      tables [800%Z; 900%Z]
  ∧ Forall2 (λ (t : gmap string value) n, t !! "descent" = Some (VInt n))
      tables [(-200)%Z; (-250)%Z]
  ∧ ∃ out b hi lo,
      merge_scalar hhea (Example.env 0) tables = Ok (out, b)
      ∧ out !! "ascent" = Some (VInt hi) ∧ out !! "descent" = Some (VInt lo)
      ∧ hi ∈ [800%Z; 900%Z] ∧ lo ∈ [(-200)%Z; (-250)%Z].
Proof.
  intros tables.
  assert (tables ≠ []) as Hne by discriminate.
  assert (Forall2 (λ (t : gmap string value) n, t !! "ascent" = Some (VInt n))
            tables [800%Z; 900%Z]) as Ha.
  { repeat constructor. }
  assert (Forall2 (λ (t : gmap string value) n, t !! "descent" = Some (VInt n))
            tables [(-200)%Z; (-250)%Z]) as Hd.
  { repeat constructor. }
  split_and!; [exact Hne|exact Ha|exact Hd|].
  destruct (merge_scalar hhea (Example.env 0) tables) as [[out b]|e] eqn:Hm;
    [|by vm_compute in Hm].
  destruct (hhea_ascent_descent (Example.env 0) tables out b _ _ Hm Hne Ha Hd)
    as (hi & lo & Hhi & Hlo & Hin & _ & Hin' & _).
  exists out, b, hi, lo. split_and!; [reflexivity|exact Hhi|exact Hlo|exact Hin|exact Hin'].
Defined.

Lemma OS2_unicode_range_witness :
  let tables : list (gmap string value) :=
    [ {[ "tableTag" := VStr "OS/2"; "ulUnicodeRange1" := VInt 1 ]};
      {[ "tableTag" := VStr "OS/2"; "ulUnicodeRange1" := VInt 512 ]} ] in
  tables ≠ []
  ∧ Forall2 (λ (t : gmap string value) n,
               t !! "ulUnicodeRange1" = Some (VInt n)) tables [1%Z; 512%Z]
  ∧ ∃ out b m, merge_scalar OS2 (Example.env 0) tables = Ok (out, b)
               ∧ out !! "ulUnicodeRange1" = Some (VInt m)
               ∧ Z.testbit m 9 = true.
Proof.
  intros tables.
  assert (tables ≠ []) as Hne by discriminate.
  assert (Forall2 (λ (t : gmap string value) n,
                     t !! "ulUnicodeRange1" = Some (VInt n)) tables [1%Z; 512%Z])
    as Hr.
  { repeat constructor. }
  split_and!; [exact Hne|exact Hr|].
  destruct (merge_scalar OS2 (Example.env 0) tables) as [[out b]|e] eqn:Hm;
    [|by vm_compute in Hm].
  destruct (OS2_unicode_range (Example.env 0) tables out b _ Hm Hne Hr)
    as (m & Hm' & Hbits).
  exists out, b, m. split_and!; [reflexivity|exact Hm'|].
  apply Hbits. exists 512%Z. split; [|reflexivity]. right. left.
Defined.

End scalar_tables_examples.

(** ** The character map: failures and merging again *)

Section cmap_more.

Import Cmap.

Lemma forallb_supported_false (l : list subtable) :
  forallb supported l = false ↔ Exists (λ t, supported t = false) l.
Proof.
  induction l as [|t l IH]; simpl.
  - split; [done|]. by intros ?%Exists_nil.
  - rewrite Exists_cons, andb_false_iff, IH. done.
Qed.

(** X20.  How the character-map merge fails: with the assertion exactly
    when a selected subtable has a format other than 4 and 12, and with
    the [ValueError] of [max] on an empty sequence exactly when no
    subtable is selected at all; it fails in no other way. *)
Theorem cmap_merge_failures (m_tables : list Cmap.table) :
  (Cmap.merge m_tables = Raise AssertionError ↔
     Exists (λ t, supported t = false) (cmapTables m_tables))
  ∧ (Cmap.merge m_tables = Raise ValueError ↔ cmapTables m_tables = [])
  ∧ ∀ e, Cmap.merge m_tables = Raise e → e = AssertionError ∨ e = ValueError.
Proof.
  unfold Cmap.merge.
  destruct (forallb supported (cmapTables m_tables)) eqn:Hs; simpl.
  - assert (¬ Exists (λ t, supported t = false) (cmapTables m_tables)) as Hno.
    { rewrite <-forallb_supported_false. congruence. }
    destruct (cmapTables m_tables) as [|t l] eqn:Hsel; simpl.
    + split_and!; [done|done|]. intros e [= <-]. by right.
    + split_and!; [done|done|done].
  - apply forallb_supported_false in Hs. split_and!; [done| |].
    + split; [done|]. intros Hnil. rewrite Hnil in Hs. by apply Exists_nil in Hs.
    + intros e [= <-]. by left.
Qed.

Lemma selected_true t :
  selected t = true ↔
    platformID t = 3%Z ∧ (platEncID t = 1%Z ∨ platEncID t = 10%Z).
Proof.
  unfold selected.
  rewrite andb_true_iff, orb_true_iff, !bool_decide_eq_true. done.
Qed.

Lemma elem_of_cmapTables m_tables t :
  t ∈ cmapTables m_tables → selected t = true.
Proof. unfold cmapTables. by intros [? _]%list_elem_of_filter. Qed.

(** X21.  What a successful character-map merge returns can be merged
    again: merged on its own it gives itself back, so its one subtable is
    itself a selected subtable of format 4 or 12. *)
Theorem cmap_merge_again (m_tables : list Cmap.table) out b :
  Cmap.merge m_tables = Ok (out, b) →
  Cmap.merge [out] = Ok (out, true).
Proof.
  intros Hm.
  assert (Forall (λ t, supported t = true) (cmapTables m_tables)) as Hsup.
  { apply (proj1 (cmap_merge_succeeds m_tables)). by eexists. }
  apply cmap_merge_Ok in Hm as (fmt & enc & Hfmt & Henc & -> & ->).
  apply max_int_spec in Hfmt as [Hfmt _], Henc as [Henc _].
  apply list_elem_of_fmap in Hfmt as (t1 & -> & Ht1).
  apply list_elem_of_fmap in Henc as (t2 & -> & Ht2).
  rewrite Forall_forall in Hsup. pose proof (Hsup t1 Ht1) as Hs1.
  apply elem_of_cmapTables, selected_true in Ht2 as [_ Henc].
  unfold Cmap.merge, cmapTables. simpl.
  rewrite filter_cons_True.
  2:{ apply selected_true. done. }
  rewrite filter_nil. simpl.
  unfold supported in Hs1 |- *. simpl. rewrite Hs1. simpl.
  unfold update_all. simpl. by rewrite (right_id_L ∅ (∪)).
Qed.

End cmap_more.

Section cmap_more_examples.

Import Cmap.

Lemma cmap_merge_again_witness :
  let a_win := {| format := 4; platformID := 3; platEncID := 1; language := 0;
                  cmap := {[ 97%Z := "a#0" ]} |} in
  let b_win := {| format := 12; platformID := 3; platEncID := 10; language := 0;
                  cmap := {[ 98%Z := "a#1" ]} |} in
  let m_tables :=
    [ {| tableVersion := 0; numSubTables := 1; tables := [a_win] |};
      {| tableVersion := 0; numSubTables := 1; tables := [b_win] |} ] in
  ∃ out, Cmap.merge m_tables = Ok (out, true)
         ∧ Cmap.merge [out] = Ok (out, true).
Proof.
  intros a_win b_win m_tables.
  destruct (Cmap.merge m_tables) as [[out b]|e] eqn:Hmerge; [|by vm_compute in Hmerge].
  assert (b = true) as -> by (vm_compute in Hmerge; congruence).
  exists out. split; [reflexivity|].
  exact (cmap_merge_again m_tables out true Hmerge).
Defined.

End cmap_more_examples.

(** ** The glyph-definition table: lists and class definitions *)

Section gdef_more.

Import GDEF.

Context {LigGlyphRecord AttachPointRecord : Type}.

Lemma gather_concat {X R}
    (field : (GDEF.GDEF LigGlyphRecord AttachPointRecord) → option X)
    (cov : X → Coverage) (recs : X → list R)
    (m_tables : list (GDEF.table LigGlyphRecord AttachPointRecord)) :
  gather field cov recs m_tables
  = (concat ((λ x, cov_glyphs (cov x)) <$> omap (λ t, field (table_of t)) m_tables),
     concat (recs <$> omap (λ t, field (table_of t)) m_tables)).
Proof.
  unfold gather.
  assert (∀ g r,
    foldl (λ '(glyphs, records) (t : GDEF.table LigGlyphRecord AttachPointRecord),
             match field (table_of t) with
             | Some x => (glyphs ++ cov_glyphs (cov x), records ++ recs x)
             | None => (glyphs, records)
             end) (g, r) m_tables
    = (g ++ concat ((λ x, cov_glyphs (cov x))
                      <$> omap (λ t, field (table_of t)) m_tables),
       r ++ concat (recs <$> omap (λ t, field (table_of t)) m_tables))) as Hgen.
  { induction m_tables as [|t l IH]; intros g r; csimpl.
    - by rewrite !app_nil_r.
    - destruct (field (table_of t)) as [x|]; csimpl; rewrite IH; [|done].
      by rewrite <-!app_assoc. }
  apply Hgen.
Qed.

(** X22.  A list substructure of the merged GDEF (ligature carets,
    attachment points) holds the coverage glyphs and the records of the
    sources that have the substructure, concatenated in input order,
    and its count is the number of records. *)
Theorem GDEF_lists_concatenated
    (m_tables : list (GDEF.table LigGlyphRecord AttachPointRecord)) :
  let out := table_of (GDEF.merge m_tables).1 in
  (∀ y, GDEF_LigCaretList out = Some y →
     cov_glyphs (lcl_Coverage y)
     = concat ((λ x, cov_glyphs (lcl_Coverage x))
                 <$> omap (λ t, GDEF_LigCaretList (table_of t)) m_tables)
     ∧ lcl_LigGlyph y
       = concat (lcl_LigGlyph
                   <$> omap (λ t, GDEF_LigCaretList (table_of t)) m_tables)
     ∧ lcl_GlyphCount y = length (lcl_LigGlyph y))
  ∧ (∀ y, GDEF_AttachList out = Some y →
       cov_glyphs (al_Coverage y)
       = concat ((λ x, cov_glyphs (al_Coverage x))
                   <$> omap (λ t, GDEF_AttachList (table_of t)) m_tables)
       ∧ al_AttachPoint y
         = concat (al_AttachPoint
                     <$> omap (λ t, GDEF_AttachList (table_of t)) m_tables)
       ∧ al_GlyphCount y = length (al_AttachPoint y)).
Proof.
  simpl. split; intros y.
  - unfold merge_LigCaretList. destruct (any_has _ _); [|done].
    rewrite gather_concat. by intros [= <-].
  - unfold merge_AttachList. destruct (any_has _ _); [|done].
    rewrite gather_concat. by intros [= <-].
Qed.

Lemma length_concat_aligned {X R} (glyphs : X → list string) (recs : X → list R)
    (l : list X) :
  Forall (λ x, length (glyphs x) = length (recs x)) l →
  length (concat (glyphs <$> l)) = length (concat (recs <$> l)).
Proof.
  induction 1 as [|x l Hx _ IH]; csimpl; [done|].
  rewrite !length_app. by rewrite Hx, IH.
Qed.

(** X23.  The merge keeps coverage and records in step: when every
    source substructure has as many coverage glyphs as records, the
    merged one has too, and its count is that number. *)
Theorem GDEF_lists_aligned
    (m_tables : list (GDEF.table LigGlyphRecord AttachPointRecord)) :
  let out := table_of (GDEF.merge m_tables).1 in
  (Forall (λ t, ∀ x, GDEF_LigCaretList (table_of t) = Some x →
                  length (cov_glyphs (lcl_Coverage x)) = length (lcl_LigGlyph x))
     m_tables →
   ∀ y, GDEF_LigCaretList out = Some y →
     length (cov_glyphs (lcl_Coverage y)) = lcl_GlyphCount y
     ∧ length (lcl_LigGlyph y) = lcl_GlyphCount y)
  ∧ (Forall (λ t, ∀ x, GDEF_AttachList (table_of t) = Some x →
                    length (cov_glyphs (al_Coverage x))
                    = length (al_AttachPoint x))
       m_tables →
     ∀ y, GDEF_AttachList out = Some y →
       length (cov_glyphs (al_Coverage y)) = al_GlyphCount y
       ∧ length (al_AttachPoint y) = al_GlyphCount y).
Proof.
  simpl. split; intros Hall y.
  - unfold merge_LigCaretList. destruct (any_has _ _); [|done].
    rewrite gather_concat. intros [= <-]. simpl. split; [|done].
    apply length_concat_aligned. clear -Hall.
    induction Hall as [|t l Ht _ IH]; csimpl; [done|].
    destruct (GDEF_LigCaretList (table_of t)) as [x|]; csimpl; [|done].
    constructor; [by apply Ht|done].
  - unfold merge_AttachList. destruct (any_has _ _); [|done].
    rewrite gather_concat. intros [= <-]. simpl. split; [|done].
    apply length_concat_aligned. clear -Hall.
    induction Hall as [|t l Ht _ IH]; csimpl; [done|].
    destruct (GDEF_AttachList (table_of t)) as [x|]; csimpl; [|done].
    constructor; [by apply Ht|done].
Qed.

(** X24.  A class definition of the merged GDEF (mark-attachment
    classes, glyph classes) gives a glyph the class of the latest source
    whose definition has the glyph. *)
Theorem GDEF_classDefs_latest
    (field : (GDEF.GDEF LigGlyphRecord AttachPointRecord) → option ClassDef)
    (m_tables : list (GDEF.table LigGlyphRecord AttachPointRecord)) y :
  merge_ClassDef field m_tables = Some y →
  ∀ glyph class,
    classDefs y !! glyph = Some class ↔
      ∃ i t x, m_tables !! i = Some t ∧ field (table_of t) = Some x
               ∧ classDefs x !! glyph = Some class
               ∧ ∀ j t' x', i < j → m_tables !! j = Some t' →
                            field (table_of t') = Some x' →
                            classDefs x' !! glyph = None.
Proof.
  unfold merge_ClassDef. destruct (any_has _ _); [|done]. intros [= <-].
  intros glyph class. simpl. unfold gather_classDefs.
  set (get := λ t : GDEF.table LigGlyphRecord AttachPointRecord,
         match field (table_of t) with Some x => classDefs x | None => ∅ end).
  assert (∀ acc l,
    foldl (λ acc (t : GDEF.table LigGlyphRecord AttachPointRecord),
             match field (table_of t) with
             | Some x => classDefs x ∪ acc
             | None => acc
             end) acc l
    = foldl (λ acc t, get t ∪ acc) acc l) as ->.
  { intros acc l. revert acc. induction l as [|t l IH]; intros acc; simpl; [done|].
    rewrite IH. unfold get.
    destruct (field (table_of t)); by rewrite ?(left_id_L ∅ (∪)). }
  rewrite foldl_update_Some. split.
  - intros [(i & t & Hi & Ht & Hlater)|[? _]]; [|done].
    unfold get in Ht. destruct (field (table_of t)) as [x|] eqn:Hx; [|done].
    exists i, t, x. split_and!; [done..|].
    intros j t' x' Hj Ht' Hx'. specialize (Hlater j t' Hj Ht').
    unfold get in Hlater. by rewrite Hx' in Hlater.
  - intros (i & t & x & Hi & Hx & Hg & Hlater). left.
    exists i, t. split_and!; [done| |].
    + unfold get. by rewrite Hx.
    + intros j t' Hj Ht'. unfold get.
      destruct (field (table_of t')) as [x'|] eqn:Hx'; [|done].
      by eapply Hlater.
Qed.

End gdef_more.

Section gdef_more_examples.

Import GDEF.

Lemma GDEF_lists_concatenated_witness :
  ∃ y, GDEF_LigCaretList (table_of (GDEF.merge Example.gdef_tables).1) = Some y
       ∧ cov_glyphs (lcl_Coverage y)
         = concat ((λ x, cov_glyphs (lcl_Coverage x))
                     <$> omap (λ t, GDEF_LigCaretList (table_of t))
                           Example.gdef_tables)
       ∧ lcl_GlyphCount y = length (lcl_LigGlyph y).
Proof.
  destruct (GDEF_LigCaretList (table_of (GDEF.merge Example.gdef_tables).1))
    as [y|] eqn:Hy; [|by vm_compute in Hy].
  exists y. split; [reflexivity|].
  destruct (proj1 (GDEF_lists_concatenated Example.gdef_tables) y Hy)
    as (Hglyphs & _ & Hcount).
  split; [exact Hglyphs|exact Hcount].
Defined.

Lemma GDEF_lists_aligned_witness :
  Forall (λ t : GDEF.table (list Z) (list nat),
            ∀ x, GDEF_LigCaretList (table_of t) = Some x →
                 length (cov_glyphs (lcl_Coverage x)) = length (lcl_LigGlyph x))
    Example.gdef_tables
  ∧ ∃ y, GDEF_LigCaretList (table_of (GDEF.merge Example.gdef_tables).1) = Some y
         ∧ length (cov_glyphs (lcl_Coverage y)) = lcl_GlyphCount y
         ∧ length (lcl_LigGlyph y) = lcl_GlyphCount y.
Proof.
  assert (Forall (λ t : GDEF.table (list Z) (list nat),
            ∀ x, GDEF_LigCaretList (table_of t) = Some x →
                 length (cov_glyphs (lcl_Coverage x)) = length (lcl_LigGlyph x))
            Example.gdef_tables) as Hall.
  { repeat constructor; intros x [= <-]; reflexivity. }
  split; [exact Hall|].
  destruct (GDEF_LigCaretList (table_of (GDEF.merge Example.gdef_tables).1))
    as [y|] eqn:Hy; [|by vm_compute in Hy].
  exists y. split; [reflexivity|].
  exact (proj1 (GDEF_lists_aligned Example.gdef_tables) Hall y Hy).
Defined.

Lemma GDEF_classDefs_latest_witness :
  ∃ y, merge_ClassDef GDEF_GlyphClassDef Example.gdef_tables = Some y
       ∧ (classDefs y !! "acute#1" = Some 3%Z ↔
            ∃ i t x, Example.gdef_tables !! i = Some t
                     ∧ GDEF_GlyphClassDef (table_of t) = Some x
                     ∧ classDefs x !! "acute#1" = Some 3%Z
                     ∧ ∀ j t' x', i < j → Example.gdef_tables !! j = Some t' →
                                  GDEF_GlyphClassDef (table_of t') = Some x' →
                                  classDefs x' !! "acute#1" = None).
Proof.
  destruct (merge_ClassDef GDEF_GlyphClassDef Example.gdef_tables)
    as [y|] eqn:Hy; [|by vm_compute in Hy].
  exists y. split; [reflexivity|].
  exact (GDEF_classDefs_latest GDEF_GlyphClassDef Example.gdef_tables y Hy
           "acute#1" 3%Z).
Defined.

End gdef_more_examples.

(** ** Renamed glyph names in the merged tables *)

Section renamed.

(** X25.  The renaming tells fonts and names apart: two renamed names
    are the same only for the same font index and the same original
    name, whatever ["#"] the original names hold. *)
Theorem rename_injective n m x y :
  rename n x = rename m y ↔ n = m ∧ x = y.
Proof.
  split; [apply rename_inj|]. by intros [-> ->].
Qed.

Lemma lookup_concat_imap_rename k (l : list (list string)) n go i name :
  l !! n = Some go → go !! i = Some name →
  concat (imap (λ j, fmap (rename (k + j))) l)
    !! (sum_list (length <$> take n l) + i)
  = Some (rename (k + n) name).
Proof.
  revert k n. induction l as [|go0 l IH]; intros k n Hn Hi; [done|].
  rewrite imap_cons. simpl.
  assert (imap ((λ j, fmap (rename (k + j))) ∘ S) l
          = imap (λ j, fmap (rename (S k + j))) l) as ->.
  { apply imap_ext; intros; simpl; do 2 f_equal; lia. }
  destruct n as [|n]; simpl in *.
  - injection Hn as ->. rewrite Nat.add_0_r.
    rewrite lookup_app_l by (rewrite length_fmap; by eapply lookup_lt_Some).
    by rewrite list_lookup_fmap, Hi.
  - rewrite lookup_app_r by (rewrite length_fmap; lia).
    rewrite length_fmap.
    match goal with
    | |- _ !! (_ + ?s + _ - _) = _ =>
        replace (length go0 + s + i - length go0) with (s + i) by lia
    end.
    etrans; [exact (IH (S k) n Hn Hi)|]. do 2 f_equal. lia.
Qed.

(** X26.  Where a glyph ends up in the merged glyph order: the glyph at
    position [i] of font [n] is at position [i] plus the glyph counts of
    the fonts before it, under its renamed name. *)
Theorem mergeGlyphOrders_position (glyphOrders : list (list string)) n go i name :
  glyphOrders !! n = Some go → go !! i = Some name →
  (_mergeGlyphOrders glyphOrders).2
    !! (sum_list (length <$> take n glyphOrders) + i)
  = Some (rename n name).
Proof.
  intros Hn Hi. rewrite mergeGlyphOrders_eq. simpl.
  exact (lookup_concat_imap_rename 0 glyphOrders n go i name Hn Hi).
Qed.

Lemma mergeGlyphOrders_position_witness :
  [["a"; "b"]; ["a"]] !! 1 = Some ["a"]
  ∧ ["a"] !! 0 = Some "a"
  ∧ (_mergeGlyphOrders [["a"; "b"]; ["a"]]).2 !! 2 = Some "a#1".
Proof.
  assert ([["a"; "b"]; ["a"]] !! 1 = Some ["a"]) as Hn by reflexivity.
  assert (["a"] !! 0 = Some "a") as Hi by reflexivity.
  split; [exact Hn|]. split; [exact Hi|].
  exact (mergeGlyphOrders_position [["a"; "b"]; ["a"]] 1 ["a"] 0 "a" Hn Hi).
Defined.

(** X27.  The unifier removes no duplicate: a font whose own glyph order
    holds a name twice makes the merged glyph order hold a name
    twice. *)
Theorem mergeGlyphOrders_keeps_duplicates (glyphOrders : list (list string)) n go :
  glyphOrders !! n = Some go → ¬ NoDup go →
  ¬ NoDup (_mergeGlyphOrders glyphOrders).2.
Proof.
  intros Hn Hdup Hnd. apply Hdup.
  apply mergeGlyphOrders_NoDup_inv in Hnd. rewrite Forall_forall in Hnd.
  apply Hnd. by eapply list_elem_of_lookup_2.
Qed.

Lemma mergeGlyphOrders_keeps_duplicates_witness :
  [["a"]; ["b"; "b"]] !! 1 = Some ["b"; "b"]
  ∧ ¬ NoDup ["b"; "b"]
  ∧ ¬ NoDup (_mergeGlyphOrders [["a"]; ["b"; "b"]]).2.
Proof.
  assert ([["a"]; ["b"; "b"]] !! 1 = Some ["b"; "b"]) as Hn by reflexivity.
  assert (¬ NoDup ["b"; "b"]) as Hdup.
  { apply (bool_decide_unpack _). vm_compute. exact I. }
  split; [exact Hn|]. split; [exact Hdup|].
  exact (mergeGlyphOrders_keeps_duplicates _ 1 _ Hn Hdup).
Defined.

Import Metrics.

(** X28.  Metrics tables keyed by renamed names lose nothing in the
    merge: when the names of the table of font [n] all carry the suffix
    of [n], every entry of every source is in the merged metrics with
    its own value. *)
Theorem metrics_merge_keeps_renamed (tables : list Metrics.table) :
  (∀ n t name, tables !! n = Some t → is_Some (metrics t !! name) →
               ∃ x, name = rename n x) →
  ∀ n t name v, tables !! n = Some t → metrics t !! name = Some v →
                metrics (Metrics.merge tables).1 !! name = Some v.
Proof.
  intros Hnames n t name v Hn Hv. unfold Metrics.merge. simpl.
  apply foldl_update_Some. left. exists n, t. split_and!; [done|done|].
  intros j t' Hj Ht'. apply eq_None_not_Some. intros Hsome.
  destruct (Hnames n t name Hn) as [x Hx]; [by rewrite Hv|].
  destruct (Hnames j t' name Ht' Hsome) as [x' Hx'].
  rewrite Hx in Hx'. apply rename_inj in Hx' as [-> _]. lia.
Qed.

Lemma metrics_merge_keeps_renamed_witness :
  let tables := [ {| metrics := {[ "a#0" := (500%Z, 20%Z) ]} |};
                  {| metrics := {[ "a#1" := (600%Z, 30%Z) ]} |} ] in
  (∀ n t name, tables !! n = Some t → is_Some (metrics t !! name) →
               ∃ x, name = rename n x)
  ∧ metrics (Metrics.merge tables).1 !! "a#0" = Some (500%Z, 20%Z).
Proof.
  intros tables.
  assert (∀ n t name, tables !! n = Some t → is_Some (metrics t !! name) →
                      ∃ x, name = rename n x) as Hnames.
  { intros [|[|n]] t name [= <-] [v Hv]; simpl in Hv.
    - apply lookup_singleton_Some in Hv as [<- _]. by exists "a".
    - apply lookup_singleton_Some in Hv as [<- _]. by exists "a". }
  split; [exact Hnames|].
  exact (metrics_merge_keeps_renamed tables Hnames 0 _ "a#0" _
           eq_refl eq_refl).
Defined.

End renamed.

(** ** The glyph-outline table: what the merge holds *)

Section glyf_more.

Import Glyf.

Context {Glyph : Type}.
Variable removeHinting : Glyph → Glyph.
Variable isComposite : Glyph → bool.
Variable expand : Glyf.table → Glyph → Glyph.

Lemma process_table_dom (store : gmap ref Glyph) (t : Glyf.table) :
  dom (process_table removeHinting isComposite expand store t) = dom store.
Proof.
  unfold process_table. generalize (values t). intros refs. revert store.
  induction refs as [|g refs IH]; intros store; simpl; [done|].
  by rewrite IH, dom_alter_L.
Qed.

(** X29.  The glyph-outline merge makes and drops no glyph object: the
    store holds the same objects afterwards, also when glyphs share an
    object; the new table names exactly the glyphs the sources name, and
    each name refers to an object a source refers to under that name. *)
Theorem glyf_merge_keys (tables : list Glyf.table) (store : gmap ref Glyph) :
  dom (merge removeHinting isComposite expand tables store).1.1 = dom store
  ∧ dom (merge removeHinting isComposite expand tables store).1.2
    = ⋃ (dom ∘ glyphs <$> tables)
  ∧ ∀ name g,
      (merge removeHinting isComposite expand tables store).1.2 !! name = Some g →
      ∃ t, t ∈ tables ∧ glyphs t !! name = Some g.
Proof.
  rewrite merge_unfold. simpl. split_and!.
  - revert store. induction tables as [|t tables IH]; intros store; simpl; [done|].
    by rewrite IH, process_table_dom.
  - rewrite foldl_update_dom. set_solver.
  - intros name g [(i & t & Hi & Hg & _)|[? _]]%foldl_update_Some; [|done].
    exists t. split; [by eapply list_elem_of_lookup_2|done].
Qed.

End glyf_more.

Section more_examples.

Import Cmap.

(** A font whose only Windows subtable has format 6. *)
Lemma cmap_merge_failures_witness :
  let t6 := {| format := 6; platformID := 3; platEncID := 1; language := 0;
               cmap := {[ 97%Z := "a#0" ]} |} in
  let m_tables := [ {| tableVersion := 0; numSubTables := 1; tables := [t6] |} ] in
  Exists (λ t, supported t = false) (cmapTables m_tables)
  ∧ Cmap.merge m_tables = Raise AssertionError.
Proof.
  intros t6 m_tables.
  assert (Exists (λ t, supported t = false) (cmapTables m_tables)) as Hex.
  { apply Exists_cons. left. reflexivity. }
  split; [exact Hex|].
  exact (proj2 (proj1 (cmap_merge_failures m_tables)) Hex).
Defined.

End more_examples.

Section glyf_more_examples.

Import Glyf.

Lemma glyf_merge_keys_witness :
  let hinted := {| instructions := [176%Z; 1%Z]; composite := false;
                   componentIds := []; componentNames := None |} in
  let t := {| glyphOrder := ["a#0"]; glyphs := {[ "a#0" := 0 ]} |} in
  let store : gmap ref glyph := {[ 0 := hinted ]} in
  ∃ g, (glyph_merge [t] store).1.2 !! "a#0" = Some g
       ∧ ∃ t', t' ∈ [t] ∧ glyphs t' !! "a#0" = Some g.
Proof.
  intros hinted t store.
  destruct ((glyph_merge [t] store).1.2 !! "a#0") as [g|] eqn:Hg;
    [|by vm_compute in Hg].
  exists g. split; [reflexivity|].
  exact (proj2 (proj2 (glyf_merge_keys glyph_removeHinting glyph_isComposite
                         glyph_expand [t] store)) "a#0" g Hg).
Defined.

End glyf_more_examples.
